(** * Minesweeper knowledge engine: a shallow embedding of [minesweeper.py]

    The development follows the three classes of the program:
    [Minesweeper] (the board, used here only as ground truth for the
    observations a driver reports), [Sentence] (a set of cells with a mine
    count) and [MinesweeperAI] (the knowledge base and its update).

    Line numbers are those of [src/minesweeper.py].  Python integers are
    unbounded, so coordinates and counts are [Z].
    Python sets of cells are [gset Cell]; the knowledge base is a Python list
    of [Sentence] objects.  Every [Sentence] object is created right where it
    is appended, so no object occurs at two positions of the list and a list
    of values models the list of references; [list.remove] and [in] compare
    with [Sentence.__eq__], that is by value, which is what the model does. *)

From stdpp Require Import base option list sets gmap.
From Stdlib Require Import ZArith Lia.

Set Warnings "-clear-no-such-hyp".

Local Open Scope Z_scope.

(** ** Cells and [range] *)

Abbreviation Cell := (Z * Z)%type.

(** [range(a, b)] of Python. *)
Definition range (a b : Z) : list Z := seqZ a (b - a).

(** The nested loops [for i in range(r-1, r+2): for j in range(c-1, c+2)]
    visit these pairs, in this order. *)
Definition around (cell : Cell) : list Cell :=
  i ← range (cell.1 - 1) (cell.1 + 2);
  j ← range (cell.2 - 1) (cell.2 + 2);
  [(i, j)].

(** ** class Minesweeper *)

Module Game.

(** [board[i][j]] is [True] exactly for the cells of [mines]: [__init__]
    sets both together and nothing else writes them.  The mines are placed
    at random; a game is any layout. *)
Record t : Type := Build {
  height : Z;
  width : Z;
  mines : gset Cell
}.

Definition board (g : t) (i j : Z) : bool := bool_decide ((i, j) ∈ mines g).

Definition in_bounds (g : t) (i j : Z) : bool :=
  bool_decide (0 ≤ i < height g) && bool_decide (0 ≤ j < width g).

Definition is_mine (g : t) (cell : Cell) : bool := board g cell.1 cell.2.

(** One iteration of the loop body of [nearby_mines]. *)
Definition nearby_step (g : t) (cell : Cell) (count : Z) (p : Cell) : Z :=
  if decide (p = cell) then count
  else if in_bounds g p.1 p.2 then
         (if board g p.1 p.2 then count + 1 else count)
       else count.

Definition nearby_mines (g : t) (cell : Cell) : Z :=
  foldl (nearby_step g cell) 0 (around cell).

End Game.

(** ** class Sentence *)

Record Sentence : Type := mkSentence {
  cells : gset Cell;
  count : Z
}.

Global Instance Sentence_eq_dec : EqDecision Sentence.
Proof. solve_decision. Defined.

(** [len(self.cells)] *)
Definition len (X : gset Cell) : Z := Z.of_nat (size X).

(** [known_mines] and [known_safes] return a set on two branches and fall off
    the end (Python's [None]) on the third. *)
Definition known_mines (s : Sentence) : option (gset Cell) :=
  if decide (count s = 0) then Some ∅
  else if decide (count s = len (cells s)) then Some (cells s)
  else None.

Definition known_safes (s : Sentence) : option (gset Cell) :=
  if decide (count s = 0) then Some (cells s)
  else if decide (count s = len (cells s)) then Some ∅
  else None.

(** Truth value of the result in [if sentence.known_safes():]: [None] and the
    empty set are false. *)
Definition truthy (r : option (gset Cell)) : bool :=
  match r with
  | Some X => bool_decide (X ≠ ∅)
  | None => false
  end.

Definition mark_mine (cell : Cell) (s : Sentence) : Sentence :=
  if decide (cell ∈ cells s)
  then {| cells := cells s ∖ {[cell]}; count := count s - 1 |}
  else s.

Definition mark_safe (cell : Cell) (s : Sentence) : Sentence :=
  if decide (cell ∈ cells s)
  then {| cells := cells s ∖ {[cell]}; count := count s |}
  else s.

(** ** class MinesweeperAI *)

Record AI : Type := mkAI {
  height : Z;
  width : Z;
  moves_made : gset Cell;
  mines : gset Cell;
  safes : gset Cell;
  knowledge : list Sentence
}.

Global Instance AI_eq_dec : EqDecision AI.
Proof. solve_decision. Defined.

(** [MinesweeperAI.__init__] *)
Definition init (h w : Z) : AI :=
  {| height := h; width := w; moves_made := ∅; mines := ∅; safes := ∅;
     knowledge := [] |}.

(** [MinesweeperAI.mark_mine]: the loop updates every sentence in place and
    leaves the list itself as it is. *)
Definition ai_mark_mine (st : AI) (cell : Cell) : AI :=
  {| height := height st; width := width st; moves_made := moves_made st;
     mines := {[cell]} ∪ mines st; safes := safes st;
     knowledge := mark_mine cell <$> knowledge st |}.

Definition ai_mark_safe (st : AI) (cell : Cell) : AI :=
  {| height := height st; width := width st; moves_made := moves_made st;
     mines := mines st; safes := {[cell]} ∪ safes st;
     knowledge := mark_safe cell <$> knowledge st |}.

Definition in_bounds (st : AI) (p : Cell) : bool :=
  bool_decide (0 ≤ p.1 < height st) && bool_decide (0 ≤ p.2 < width st).

(** *** add_knowledge, the neighbour loop (lines 224-244)

    The loop state is the local set [cells] and the local [count]. *)
Definition neighbour_step (st : AI) (cell : Cell) (acc : gset Cell * Z)
    (p : Cell) : gset Cell * Z :=
  if decide (p = cell) then acc
  else if in_bounds st p then
    let cs := if decide (p ∉ mines st)
              then (if decide (p ∉ safes st) then {[p]} ∪ acc.1 else acc.1)
              else acc.1 in
    let n := if decide (p ∈ mines st) then acc.2 - 1 else acc.2 in
    (cs, n)
  else acc.

Definition neighbours (st : AI) (cell : Cell) (count : Z) : gset Cell * Z :=
  foldl (neighbour_step st cell) (∅, count) (around cell).

(** *** add_knowledge, removal of empty sentences (lines 246-249)

    [for sentence in self.knowledge] keeps an index into the live list: each
    round reads [knowledge[i]] if [i < len(knowledge)] and moves to [i + 1];
    [self.knowledge.remove(sentence)] deletes the first element equal to
    [sentence].  [remove_first] is [list.remove] for an element known to be
    in the list. *)
Fixpoint remove_first (x : Sentence) (l : list Sentence) : list Sentence :=
  match l with
  | [] => []
  | y :: l' => if decide (y = x) then l' else y :: remove_first x l'
  end.

Fixpoint remove_empty_from (fuel i : nat) (kb : list Sentence)
    : list Sentence :=
  match fuel with
  | O => kb
  | S fuel' =>
      match kb !! i with
      | None => kb
      | Some s =>
          if decide (len (cells s) = 0)
          then remove_empty_from fuel' (S i) (remove_first s kb)
          else remove_empty_from fuel' (S i) kb
      end
  end.

(** The list never grows and the index moves on in every round, so
    [length kb] rounds are enough (see [remove_empty_from_fuel]). *)
Definition remove_empty (kb : list Sentence) : list Sentence :=
  remove_empty_from (length kb) 0 kb.

(** *** add_knowledge, the subset loop (lines 260-284)

    [knowledge[i]] raises [IndexError] past the end of the list and
    [list.remove] raises [ValueError] for an absent element: both are [None]
    here.  [cs] and [n] are the locals [cells] and [count];
    [mkSentence cs n] is [new_sentence], which still has that value during
    this loop.  [range(length)] is fixed before the loop starts: the loop
    runs over the indices [idx] while the list changes under it. *)
Definition py_remove (x : Sentence) (l : list Sentence)
    : option (list Sentence) :=
  if decide (x ∈ l) then Some (remove_first x l) else None.

Definition subset_step (cs : gset Cell) (n : Z) (kb : list Sentence)
    (i : nat) : option (list Sentence) :=
  s ← kb !! i;
  if decide (cells s ≠ cs) then
    if decide (cells s ⊆ cs) then
      let kb1 := kb ++ [mkSentence (cs ∖ cells s) (n - count s)] in
      if decide (mkSentence cs n ∈ kb1)
      then py_remove (mkSentence cs n) kb1
      else Some kb1
    else if decide (cs ⊆ cells s) then
      let kb1 := kb ++ [mkSentence (cells s ∖ cs) (count s - n)] in
      s' ← kb1 !! i;
      py_remove s' kb1
    else Some kb
  else Some kb.

Fixpoint subset_loop (cs : gset Cell) (n : Z) (kb : list Sentence)
    (idx : list nat) : option (list Sentence) :=
  match idx with
  | [] => Some kb
  | i :: idx' => kb' ← subset_step cs n kb i; subset_loop cs n kb' idx'
  end.

(** *** add_knowledge, the extraction loop (lines 286-310)

    The list is not resized here, so the loop visits the positions
    [0 .. len-1]; the sentences themselves change under it, and
    [sentence.known_mines()] is asked after the safe cells have been marked.
    [known_safes] and [known_mines] can return [self.cells] itself; the code
    copies it into [x] before marking, and the model takes the value of the
    set at that point.  [x] is walked in the set's iteration order;
    [elements] fixes one. *)
Definition visit (st : AI) (i : nat) : AI :=
  match knowledge st !! i with
  | None => st
  | Some s =>
      let st1 :=
        if truthy (known_safes s)
        then foldl ai_mark_safe st (elements (default ∅ (known_safes s)))
        else st in
      match knowledge st1 !! i with
      | None => st1
      | Some s1 =>
          if truthy (known_mines s1)
          then foldl ai_mark_mine st1 (elements (default ∅ (known_mines s1)))
          else st1
      end
  end.

Definition extract (st : AI) : AI :=
  foldl visit st (seq 0 (length (knowledge st))).

(** *** add_knowledge *)
Definition with_knowledge (st : AI) (kb : list Sentence) : AI :=
  {| height := height st; width := width st; moves_made := moves_made st;
     mines := mines st; safes := safes st; knowledge := kb |}.

(** [self.moves_made.add(cell)] *)
Definition record_move (st : AI) (cell : Cell) : AI :=
  {| height := height st; width := width st;
     moves_made := {[cell]} ∪ moves_made st;
     mines := mines st; safes := safes st; knowledge := knowledge st |}.

(** The engine after the first two statements of [add_knowledge]. *)
Definition probed (st : AI) (cell : Cell) : AI :=
  ai_mark_safe (record_move st cell) cell.

Definition add_knowledge (st : AI) (cell : Cell) (count : Z) : option AI :=
  let st2 := probed st cell in
  let '(cs, n) := neighbours st2 cell count in
  let st3 := with_knowledge st2 (remove_empty (knowledge st2)) in
  if decide (len cs ≠ 0) then
    let kb := knowledge st3 ++ [mkSentence cs n] in
    kb' ← subset_loop cs n kb (seq 0 (length kb));
    Some (extract (with_knowledge st3 kb'))
  else Some st3.

(** *** make_safe_move and make_random_move

    Both only read the engine.  The iteration order of a Python set is not
    specified; [elements] fixes one.  [random.sample(setall, 1)[0]] is a
    draw from [setall] (in the Python versions where [random.sample] takes a
    set): the draw is the argument [r]. *)
Definition make_safe_move (st : AI) : option Cell * AI :=
  (snd <$> list_find (λ x, x ∉ moves_made st) (elements (safes st)), st).

Definition setall (st : AI) : gset Cell :=
  list_to_set (i ← range 0 (width st); j ← range 0 (height st); [(i, j)]).

Definition candidates (st : AI) : gset Cell :=
  setall st ∖ moves_made st ∖ safes st ∖ mines st.

Definition make_random_move (st : AI) (r : nat) : option Cell * AI :=
  let l := elements (candidates st) in
  (if decide (len (candidates st) = 0) then None
   else l !! (r mod length l)%nat,
   st).

(** The set the specification gives for [next_random_move]:
    [all_cells − probed − known_safe − known_mine] with
    [all_cells = [0,height) x [0,width)].  It follows the specification's
    words and is compared with [candidates], which follows the code. *)
Definition spec_all_cells (h w : Z) : gset Cell :=
  list_to_set (i ← range 0 h; j ← range 0 w; [(i, j)]).

Definition spec_unexplored (st : AI) : gset Cell :=
  spec_all_cells (height st) (width st)
    ∖ moves_made st ∖ safes st ∖ mines st.

(** ** Engine states

    [reachable h w] are the states that calls of the three public methods
    produce from a fresh engine, whatever the arguments.  [driven g] are the
    states produced when the calls come from a driver that plays the game
    [g]: it reports cells of the board that are not mines, each with the
    number [nearby_mines] gives for it. *)
Inductive reachable (h w : Z) : AI → Prop :=
| reachable_init : reachable h w (init h w)
| reachable_add st cell n st' :
    reachable h w st → add_knowledge st cell n = Some st' →
    reachable h w st'
| reachable_safe_move st :
    reachable h w st → reachable h w (make_safe_move st).2
| reachable_random_move st r :
    reachable h w st → reachable h w (make_random_move st r).2.

Inductive driven (g : Game.t) : AI → Prop :=
| driven_init : driven g (init (Game.height g) (Game.width g))
| driven_add st cell st' :
    driven g st →
    Game.in_bounds g cell.1 cell.2 = true → Game.is_mine g cell = false →
    add_knowledge st cell (Game.nearby_mines g cell) = Some st' →
    driven g st'
| driven_safe_move st :
    driven g st → driven g (make_safe_move st).2
| driven_random_move st r :
    driven g st → driven g (make_random_move st r).2.

(** The calls of [reachable] with one restriction: no observation is
    reported for a cell that is a known mine at the time of the call.  The
    count and the cell are free otherwise; the cell may lie off the board. *)
Inductive guarded (h w : Z) : AI → Prop :=
| guarded_init : guarded h w (init h w)
| guarded_add st cell n st' :
    guarded h w st → cell ∉ mines st →
    add_knowledge st cell n = Some st' →
    guarded h w st'
| guarded_safe_move st :
    guarded h w st → guarded h w (make_safe_move st).2
| guarded_random_move st r :
    guarded h w st → guarded h w (make_random_move st r).2.

(** A driver that plays [g] and probes the given cells in turn. *)
Definition play (g : Game.t) (probes : list Cell) : option AI :=
  foldl (λ o cell, st ← o; add_knowledge st cell (Game.nearby_mines g cell))
        (Some (init (Game.height g) (Game.width g))) probes.

(** Any sequence of observations, from a fresh engine. *)
Definition replay (h w : Z) (calls : list (Cell * Z)) : option AI :=
  foldl (λ o call, st ← o; add_knowledge st call.1 call.2)
        (Some (init h w)) calls.

(** ** Predicates used in the statements *)

(** A sentence says that exactly [count] of its cells are mines.  For a mine
    layout [M] that is [holds M s]. *)
Definition holds (M : gset Cell) (s : Sentence) : Prop :=
  count s = len (cells s ∩ M).

(** A call of one of the two marking methods of [Sentence]. *)
Inductive mark : Type :=
| MarkMine (cell : Cell)
| MarkSafe (cell : Cell).

Definition apply_mark (s : Sentence) (m : mark) : Sentence :=
  match m with
  | MarkMine cell => mark_mine cell s
  | MarkSafe cell => mark_safe cell s
  end.

(** The call agrees with the layout: only mines are marked as mines and only
    mine-free cells as safe. *)
Definition agrees (M : gset Cell) (m : mark) : Prop :=
  match m with
  | MarkMine cell => cell ∈ M
  | MarkSafe cell => cell ∉ M
  end.

Definition is_empty (s : Sentence) : Prop := len (cells s) = 0.


(** What the extraction loop leaves alone, and what only grows. *)
Definition extends (st st' : AI) : Prop :=
  height st' = height st ∧ width st' = width st
  ∧ moves_made st' = moves_made st
  ∧ safes st ⊆ safes st' ∧ mines st ⊆ mines st'
  ∧ length (knowledge st') = length (knowledge st).

(** Every cell of every sentence is a cell of the board. *)
Definition kb_on_board (st : AI) : Prop :=
  ∀ s p, s ∈ knowledge st → p ∈ cells s → in_bounds st p = true.

(** The engine has the dimensions of the game, every sentence is true of
    the mine layout, no safe cell is a mine and every known mine is one. *)
Definition sound (g : Game.t) (st : AI) : Prop :=
  height st = Game.height g ∧ width st = Game.width g
  ∧ Forall (holds (Game.mines g)) (knowledge st)
  ∧ safes st ## Game.mines g ∧ mines st ⊆ Game.mines g.

(** ** class Minesweeper, with the board as the list of rows it is

    [Game.t] above keeps the set of mines only.  [Board.t] has the fields of
    the class: [board] is the list of rows [__init__] builds, each row a
    list of its own, so that writing one row leaves the others alone.
    [random.randrange] is a draw: the cells drawn are the list [draws], and
    a list that ends before the loop does leaves the loop [Running]. *)

Module Board.

Record t : Type := Build {
  height : Z;
  width : Z;
  board : list (list bool);
  mines : gset Cell;
  mines_found : gset Cell
}.

(** [l[i]] of Python: a negative index counts from the end of the list;
    [None] is [IndexError]. *)
Definition py_get {A} (l : list A) (i : Z) : option A :=
  if decide (0 ≤ i) then l !! Z.to_nat i
  else if decide (0 ≤ Z.of_nat (length l) + i)
       then l !! Z.to_nat (Z.of_nat (length l) + i)
       else None.

(** [l[i] = x] *)
Definition py_set {A} (l : list A) (i : Z) (x : A) : option (list A) :=
  if decide (0 ≤ i) then
    if decide (i < Z.of_nat (length l))
    then Some (<[Z.to_nat i := x]> l) else None
  else if decide (0 ≤ Z.of_nat (length l) + i)
       then Some (<[Z.to_nat (Z.of_nat (length l) + i) := x]> l)
       else None.

(** The loops that fill the board with [False] (lines 17-23). *)
Definition blank_row (w : Z) : list bool :=
  foldl (λ row _, row ++ [false]) [] (range 0 w).

Definition blank (h w : Z) : list (list bool) :=
  foldl (λ b _, b ++ [blank_row w]) [] (range 0 h).

(** The body of the loop that places the mines (lines 27-31), for the draw
    [(i, j)]. *)
Definition place_step (b : t) (d : Cell) : option t :=
  row ← py_get (board b) d.1;
  cur ← py_get row d.2;
  if cur : bool then Some b
  else
    row' ← py_set row d.2 true;
    board' ← py_set (board b) d.1 row';
    Some {| height := height b; width := width b; board := board';
            mines := {[d]} ∪ mines b; mines_found := mines_found b |}.

Inductive outcome : Type :=
| Done (b : t)
| Raised
| Running (b : t).

(** [while len(self.mines) != mines:]; [random.randrange(n)] raises
    [ValueError] when [n <= 0]. *)
Fixpoint place (target : Z) (draws : list Cell) (b : t) : outcome :=
  if decide (len (mines b) = target) then Done b
  else if decide (height b ≤ 0 ∨ width b ≤ 0) then Raised
  else match draws with
       | [] => Running b
       | d :: draws' =>
           match place_step b d with
           | None => Raised
           | Some b' => place target draws' b'
           end
       end.

(** [Minesweeper.__init__(height, width, mines)]; [mines_found] is set
    after the loop and read nowhere in it. *)
Definition init (h w target : Z) (draws : list Cell) : outcome :=
  place target draws
    {| height := h; width := w; board := blank h w; mines := ∅;
       mines_found := ∅ |}.

Definition is_mine (b : t) (cell : Cell) : option bool :=
  row ← py_get (board b) cell.1; py_get row cell.2.

Definition nearby_step (b : t) (cell : Cell) (count : Z) (p : Cell)
    : option Z :=
  if decide (p = cell) then Some count
  else if bool_decide (0 ≤ p.1 < height b) && bool_decide (0 ≤ p.2 < width b)
  then v ← is_mine b p; Some (if v : bool then count + 1 else count)
  else Some count.

Definition nearby_mines (b : t) (cell : Cell) : option Z :=
  foldl (λ o p, count ← o; nearby_step b cell count p) (Some 0)
    (around cell).

Definition won (b : t) : bool := bool_decide (mines_found b = mines b).

(** The game as [Game.t] sees it. *)
Definition game (b : t) : Game.t :=
  Game.Build (height b) (width b) (mines b).

(** The board has [height] rows of [width] entries, the entry of a cell is
    [True] exactly when the cell is in [mines], and every mine is a cell of
    the board. *)
Definition synced (b : t) : Prop :=
  length (board b) = Z.to_nat (height b)
  ∧ (∀ (i j : nat), (i < Z.to_nat (height b))%nat →
       (j < Z.to_nat (width b))%nat →
       board b !! i ≫= (λ row, row !! j)
       = Some (bool_decide ((Z.of_nat i, Z.of_nat j) ∈ mines b)))
  ∧ (∀ p, p ∈ mines b → (0 ≤ p.1 < height b) ∧ (0 ≤ p.2 < width b)).

End Board.

(** ** Predicates for the further properties *)

(** [p] is a cell the loops over the neighbourhood of [cell] accept on a
    board of [h] rows and [w] columns: within one row and one column of
    [cell], not [cell] itself, and on the board. *)
Definition adjacent_on_board (h w : Z) (cell p : Cell) : Prop :=
  p ≠ cell
  ∧ (cell.1 - 1 ≤ p.1 ≤ cell.1 + 1) ∧ (cell.2 - 1 ≤ p.2 ≤ cell.2 + 1)
  ∧ (0 ≤ p.1 < h) ∧ (0 ≤ p.2 < w).

Global Instance adjacent_on_board_dec h w cell p :
  Decision (adjacent_on_board h w cell p).
Proof. unfold adjacent_on_board. apply _. Defined.

(** No sentence mentions a cell that is known safe or a known mine. *)
Definition reduced (st : AI) : Prop :=
  ∀ s, s ∈ knowledge st → cells s ## safes st ∧ cells s ## mines st.

(** Every cell the engine has recorded, in a sentence or as known safe or as
    a known mine, is a cell of the board. *)
Definition on_board (st : AI) : Prop :=
  kb_on_board st
  ∧ ∀ p, p ∈ safes st ∨ p ∈ mines st → in_bounds st p = true.

(** The extraction loop acts on a sentence when one of the two tests
    [if sentence.known_safes():] and [if sentence.known_mines():] passes. *)
Definition decisive (s : Sentence) : bool :=
  truthy (known_safes s) || truthy (known_mines s).

(** The number of cells in the sentences of the knowledge base, with
    repetitions. *)
Definition total_cells (st : AI) : nat :=
  sum_list (size ∘ cells <$> knowledge st).

(** A closed decidable statement about concrete states is settled by
    running the decision procedure. *)
Ltac by_compute := apply (bool_decide_unpack _); vm_compute; exact I.

(** ** Sentences: marking cells *)

Section sentence_marks.

Implicit Types (s : Sentence) (cell : Cell) (M : gset Cell).

Lemma mark_mine_in s cell :
  cell ∈ cells s →
  mark_mine cell s = {| cells := cells s ∖ {[cell]}; count := count s - 1 |}.
Proof. intros Hin. unfold mark_mine. by rewrite decide_True. Qed.

Lemma mark_mine_notin s cell : cell ∉ cells s → mark_mine cell s = s.
Proof. intros Hin. unfold mark_mine. by rewrite decide_False. Qed.

Lemma mark_safe_in s cell :
  cell ∈ cells s →
  mark_safe cell s = {| cells := cells s ∖ {[cell]}; count := count s |}.
Proof. intros Hin. unfold mark_safe. by rewrite decide_True. Qed.

Lemma mark_safe_notin s cell : cell ∉ cells s → mark_safe cell s = s.
Proof. intros Hin. unfold mark_safe. by rewrite decide_False. Qed.

Lemma cells_mark_mine s cell : cells (mark_mine cell s) = cells s ∖ {[cell]}.
Proof.
  unfold mark_mine. case_decide; simpl; set_solver.
Qed.

Lemma cells_mark_safe s cell : cells (mark_safe cell s) = cells s ∖ {[cell]}.
Proof.
  unfold mark_safe. case_decide; simpl; set_solver.
Qed.

Lemma count_mark_safe s cell : count (mark_safe cell s) = count s.
Proof. unfold mark_safe. by case_decide. Qed.

Lemma len_nonneg (X : gset Cell) : 0 ≤ len X.
Proof. unfold len. lia. Qed.

Lemma len_empty_iff (X : gset Cell) : len X = 0 ↔ X = ∅.
Proof.
  unfold len. split.
  - intros H. apply leibniz_equiv, size_empty_inv. lia.
  - intros ->. by rewrite size_empty.
Qed.

Lemma len_remove (X : gset Cell) cell :
  cell ∈ X → len (X ∖ {[cell]}) = len X - 1.
Proof.
  intros Hin. unfold len.
  assert (X = {[cell]} ∪ X ∖ {[cell]}) as Heq.
  { apply leibniz_equiv. apply union_difference. set_solver. }
  rewrite Heq at 2.
  rewrite (size_union {[cell]} (X ∖ {[cell]})) by set_solver.
  rewrite size_singleton. lia.
Qed.

Lemma len_subseteq (X Y : gset Cell) : X ⊆ Y → len X ≤ len Y.
Proof. intros H. unfold len. apply subseteq_size in H. lia. Qed.

Lemma len_difference (X Y : gset Cell) :
  Y ⊆ X → len (X ∖ Y) = len X - len Y.
Proof. intros H. unfold len. rewrite size_difference by done.
  apply subseteq_size in H. lia. Qed.

Lemma holds_bounds M s : holds M s → 0 ≤ count s ≤ len (cells s).
Proof.
  unfold holds. intros ->. split; [apply len_nonneg|].
  apply len_subseteq. set_solver.
Qed.

Lemma holds_mark_mine M s cell :
  cell ∈ M → holds M s → holds M (mark_mine cell s).
Proof.
  unfold holds, mark_mine. intros HM Hs. case_decide as Hin; simpl; [|done].
  replace ((cells s ∖ {[cell]}) ∩ M) with ((cells s ∩ M) ∖ {[cell]})
    by set_solver.
  rewrite len_remove by set_solver. lia.
Qed.

Lemma holds_mark_safe M s cell :
  cell ∉ M → holds M s → holds M (mark_safe cell s).
Proof.
  unfold holds, mark_safe. intros HM Hs. case_decide as Hin; simpl; [|done].
  replace ((cells s ∖ {[cell]}) ∩ M) with (cells s ∩ M) by set_solver.
  done.
Qed.

Lemma holds_apply_marks M (ms : list mark) s :
  holds M s → Forall (agrees M) ms → holds M (foldl apply_mark s ms).
Proof.
  intros Hs Hms. revert s Hs.
  induction Hms as [|m ms Hm _ IH]; intros s Hs; simpl; [done|].
  apply IH. destruct m; simpl in *.
  - by apply holds_mark_mine.
  - by apply holds_mark_safe.
Qed.

End sentence_marks.

(** ** The list operations on the knowledge base *)

Section knowledge_lists.

Implicit Types (s x y : Sentence) (kb l : list Sentence).

Lemma remove_first_notin x l : x ∉ l → remove_first x l = l.
Proof.
  induction l as [|y l IH]; simpl; [done|]. intros Hx.
  rewrite decide_False by set_solver. f_equal. apply IH. set_solver.
Qed.

Lemma remove_first_sublist x l : remove_first x l `sublist_of` l.
Proof.
  induction l as [|y l IH]; simpl; [done|].
  case_decide; [by apply sublist_cons | by apply sublist_skip].
Qed.

Lemma remove_first_elem_of x y l : y ∈ remove_first x l → y ∈ l.
Proof. intros Hy. eapply elem_of_sublist, remove_first_sublist. done. Qed.

Lemma remove_first_length x l :
  x ∈ l → S (length (remove_first x l)) = length l.
Proof.
  induction l as [|y l IH]; simpl; [by intros ?%elem_of_nil|].
  intros Hx. case_decide as Hy; [done|]. simpl. f_equal. apply IH.
  apply elem_of_cons in Hx as [->|Hx]; done.
Qed.

Lemma remove_first_length_le x l :
  (length (remove_first x l) ≤ length l)%nat.
Proof. apply sublist_length, remove_first_sublist. Qed.

Lemma remove_first_filter (P : Sentence → Prop) `{!∀ s, Decision (P s)}
    x l : ¬ P x → filter P (remove_first x l) = filter P l.
Proof.
  intros Hx. induction l as [|y l IH]; simpl; [done|].
  case_decide as Hy.
  - subst y. by rewrite filter_cons_False.
  - rewrite !filter_cons. by rewrite IH.
Qed.

(** An element other than [x] stays where it is when it comes before the
    first [x], which is the case when nothing before it equals [x]. *)
Lemma remove_first_lookup_before x l (k : nat) :
  x ∉ take (S k) l → remove_first x l !! k = l !! k.
Proof.
  revert k. induction l as [|y l IH]; intros k; simpl; [done|].
  intros Hx. rewrite decide_False by set_solver.
  destruct k as [|k]; simpl; [done|]. apply IH. set_solver.
Qed.

Lemma remove_first_take_before x l (k : nat) :
  x ∉ take k l → take k (remove_first x l) = take k l.
Proof.
  revert k. induction l as [|y l IH]; intros k; simpl; [done|].
  destruct k as [|k]; simpl; [by rewrite take_0|].
  intros Hx. rewrite decide_False by set_solver. simpl. f_equal.
  apply IH. set_solver.
Qed.

(** *** The pass that removes empty sentences *)

Lemma remove_empty_from_sublist fuel i kb :
  remove_empty_from fuel i kb `sublist_of` kb.
Proof.
  revert i kb. induction fuel as [|fuel IH]; intros i kb; simpl; [done|].
  destruct (kb !! i) as [s|]; [|done].
  case_decide; [|apply IH].
  etrans; [apply IH | apply remove_first_sublist].
Qed.


(** More fuel than the rounds that are left changes nothing: the loop
    stops by itself when the index reaches the end of the list. *)
Lemma remove_empty_from_fuel fuel fuel' i kb :
  (length kb ≤ i + fuel)%nat → (length kb ≤ i + fuel')%nat →
  remove_empty_from fuel i kb = remove_empty_from fuel' i kb.
Proof.
  revert fuel' i kb.
  induction fuel as [|fuel IH]; intros fuel' i kb Hf Hf'.
  - simpl. destruct fuel'; simpl; [done|].
    rewrite (lookup_ge_None_2 kb i) by lia. done.
  - simpl. destruct (kb !! i) as [s|] eqn:Hi.
    + apply lookup_lt_Some in Hi as Hlt.
      destruct fuel' as [|fuel']; [lia|]. simpl. rewrite Hi.
      case_decide.
      * pose proof (remove_first_length_le s kb). apply IH; lia.
      * apply IH; lia.
    + destruct fuel'; simpl; [done|]. by rewrite Hi.
Qed.

Lemma remove_empty_from_removes fuel i kb (j : nat) s :
  (length kb ≤ i + fuel)%nat → (i ≤ j)%nat →
  kb !! j = Some s → is_empty s →
  (length (remove_empty_from fuel i kb) < length kb)%nat.
Proof.
  revert i kb. induction fuel as [|fuel IH]; intros i kb Hf Hij Hj Hs.
  - apply lookup_lt_Some in Hj. lia.
  - simpl. destruct (kb !! i) as [s'|] eqn:Hi.
    + case_decide as Hs'.
      * pose proof (remove_empty_from_sublist fuel (S i)
                      (remove_first s' kb)) as Hsub%sublist_length.
        assert (s' ∈ kb) as Hin by (by eapply list_elem_of_lookup_2).
        apply remove_first_length in Hin. lia.
      * assert (i ≠ j) by (intros ->; unfold is_empty in Hs; congruence).
        apply IH; [lia|lia|done|done].
    + apply lookup_ge_None in Hi. apply lookup_lt_Some in Hj. lia.
Qed.

(** *** The subset loop *)

Lemma py_remove_Some x l :
  x ∈ l → py_remove x l = Some (remove_first x l).
Proof. intros Hx. unfold py_remove. by rewrite decide_True. Qed.

Lemma py_remove_inv x l l' :
  py_remove x l = Some l' → x ∈ l ∧ l' = remove_first x l.
Proof. unfold py_remove. case_decide; naive_solver. Qed.

(** The three outcomes of one round of the subset loop. *)
Lemma subset_step_inv cs n kb i kb' :
  subset_step cs n kb i = Some kb' →
  ∃ s, kb !! i = Some s ∧
    ((cells s ≠ cs ∧ cells s ⊆ cs ∧
      let kb1 := kb ++ [mkSentence (cs ∖ cells s) (n - count s)] in
      kb' = if decide (mkSentence cs n ∈ kb1)
            then remove_first (mkSentence cs n) kb1 else kb1)
     ∨ (cells s ≠ cs ∧ ¬ cells s ⊆ cs ∧ cs ⊆ cells s ∧
        kb' = remove_first s
                (kb ++ [mkSentence (cells s ∖ cs) (count s - n)]))
     ∨ ((cells s = cs ∨ (¬ cells s ⊆ cs ∧ ¬ cs ⊆ cells s)) ∧ kb' = kb)).
Proof.
  unfold subset_step. destruct (kb !! i) as [s|] eqn:Hi; simpl; [|done].
  intros Hstep. exists s. split; [done|].
  destruct (decide (cells s ≠ cs)) as [Hne|Heq]; cycle 1.
  { right; right. split; [left; by apply dec_stable|congruence]. }
  destruct (decide (cells s ⊆ cs)) as [Hsub|Hnsub].
  { left. split_and!; [done..|]. simpl. case_decide as Hin.
    - by apply py_remove_inv in Hstep as [_ ->].
    - congruence. }
  destruct (decide (cs ⊆ cells s)) as [Hsup|Hnsup].
  { right; left. split_and!; [done..|].
    rewrite lookup_app_l in Hstep by (by eapply lookup_lt_Some).
    rewrite Hi in Hstep. simpl in Hstep.
    by apply py_remove_inv in Hstep as [_ ->]. }
  right; right. split; [by right|congruence].
Qed.

(** The round for a sentence that is a strict subset of the new one. *)
Lemma subset_step_sub cs n kb i s :
  kb !! i = Some s → cells s ≠ cs → cells s ⊆ cs →
  subset_step cs n kb i =
    let kb1 := kb ++ [mkSentence (cs ∖ cells s) (n - count s)] in
    Some (if decide (mkSentence cs n ∈ kb1)
          then remove_first (mkSentence cs n) kb1 else kb1).
Proof.
  intros Hi Hne Hsub. unfold subset_step. rewrite Hi. cbn [mbind option_bind].
  rewrite !decide_True by done. cbv zeta.
  case_decide; [by rewrite py_remove_Some|done].
Qed.

(** No round of the subset loop fails on an index inside the list, and no
    round makes the list shorter. *)
Lemma subset_step_total cs n kb i :
  (i < length kb)%nat →
  ∃ kb', subset_step cs n kb i = Some kb' ∧ (length kb ≤ length kb')%nat.
Proof.
  intros Hi. destruct (lookup_lt_is_Some_2 kb i Hi) as [s Hs].
  unfold subset_step. rewrite Hs. simpl.
  destruct (decide (cells s ≠ cs)); [|by eauto].
  destruct (decide (cells s ⊆ cs)).
  { case_decide as Hin.
    - rewrite py_remove_Some by done. eexists; split; [done|].
      apply remove_first_length in Hin. rewrite length_app in Hin.
      simpl in Hin. lia.
    - eexists; split; [done|]. rewrite length_app. lia. }
  destruct (decide (cs ⊆ cells s)); [|by eauto].
  rewrite lookup_app_l by done. rewrite Hs. simpl.
  assert (s ∈ kb ++ [mkSentence (cells s ∖ cs) (count s - n)]) as Hin.
  { apply elem_of_app. left. by eapply list_elem_of_lookup_2. }
  rewrite py_remove_Some by done. eexists; split; [done|].
  apply remove_first_length in Hin. rewrite length_app in Hin.
  simpl in Hin. lia.
Qed.

Lemma subset_loop_total cs n idx kb :
  Forall (λ i, i < length kb)%nat idx →
  ∃ kb', subset_loop cs n kb idx = Some kb'
         ∧ (length kb ≤ length kb')%nat.
Proof.
  revert kb. induction idx as [|i idx IH]; intros kb Hidx; simpl.
  { by eauto. }
  apply Forall_cons in Hidx as [Hi Hidx].
  destruct (subset_step_total cs n kb i Hi) as (kb1 & -> & Hlen). simpl.
  destruct (IH kb1) as (kb' & -> & Hlen').
  { eapply Forall_impl; [done|]. simpl. lia. }
  eexists; split; [done|lia].
Qed.

(** A property of sentences that the two derivations keep is kept by the
    loop. *)
Lemma subset_step_Forall (P : Sentence → Prop) cs n kb i kb' :
  (∀ s, P s → cells s ⊆ cs → P (mkSentence (cs ∖ cells s) (n - count s))) →
  (∀ s, P s → cs ⊆ cells s → P (mkSentence (cells s ∖ cs) (count s - n))) →
  Forall P kb → subset_step cs n kb i = Some kb' → Forall P kb'.
Proof.
  intros H1 H2 Hkb Hstep.
  apply subset_step_inv in Hstep as (s & Hs & Hcases).
  assert (P s) as HPs.
  { eapply Forall_forall; [done|]. by eapply list_elem_of_lookup_2. }
  rewrite Forall_forall in Hkb. apply Forall_forall. intros x Hx.
  destruct Hcases as [(_ & Hsub & ->)|[(_ & _ & Hsup & ->)|(_ & ->)]].
  - assert (x ∈ kb ++ [mkSentence (cs ∖ cells s) (n - count s)]) as Hx'.
    { simpl in Hx. case_decide; [by eapply remove_first_elem_of|done]. }
    apply elem_of_app in Hx' as [?|Hx']; [by auto|].
    apply list_elem_of_singleton in Hx' as ->. auto.
  - apply remove_first_elem_of in Hx.
    apply elem_of_app in Hx as [?|Hx]; [by auto|].
    apply list_elem_of_singleton in Hx as ->. auto.
  - auto.
Qed.

Lemma subset_loop_Forall (P : Sentence → Prop) cs n idx kb kb' :
  (∀ s, P s → cells s ⊆ cs → P (mkSentence (cs ∖ cells s) (n - count s))) →
  (∀ s, P s → cs ⊆ cells s → P (mkSentence (cells s ∖ cs) (count s - n))) →
  Forall P kb → subset_loop cs n kb idx = Some kb' → Forall P kb'.
Proof.
  intros H1 H2. revert kb. induction idx as [|i idx IH]; intros kb Hkb; simpl.
  { congruence. }
  destruct (subset_step cs n kb i) as [kb1|] eqn:Hstep; simpl; [|done].
  apply IH. by eapply subset_step_Forall.
Qed.

End knowledge_lists.

(** ** The extraction loop *)

Section extraction.

Implicit Types (st : AI) (s : Sentence) (c : Cell) (i : nat).

Lemma known_safes_truthy s :
  truthy (known_safes s) = true →
  count s = 0 ∧ cells s ≠ ∅ ∧ known_safes s = Some (cells s).
Proof.
  unfold known_safes. repeat case_decide; simpl; try done.
  intros ?%bool_decide_eq_true. done.
Qed.

Lemma known_mines_truthy s :
  truthy (known_mines s) = true →
  count s ≠ 0 ∧ count s = len (cells s) ∧ cells s ≠ ∅
  ∧ known_mines s = Some (cells s).
Proof.
  unfold known_mines. repeat case_decide; simpl; try done.
  intros ?%bool_decide_eq_true. done.
Qed.

Lemma known_safes_zero s :
  count s = 0 → cells s ≠ ∅ → truthy (known_safes s) = true.
Proof.
  intros Hc Hne. unfold known_safes. rewrite decide_True by done. simpl.
  by apply bool_decide_eq_true.
Qed.

Lemma known_mines_full s :
  count s = len (cells s) → cells s ≠ ∅ → truthy (known_mines s) = true.
Proof.
  intros Hc Hne. unfold known_mines.
  rewrite decide_False by (rewrite Hc, len_empty_iff; done).
  rewrite decide_True by done. simpl. by apply bool_decide_eq_true.
Qed.

(** The inner loops [for cell in x: self.mark_safe(cell)] and
    [... self.mark_mine(cell)], for the sentence at position [i]: a
    property of the engine that every single marking keeps is kept by the
    loop.  The sentence shrinks with every marking, but it keeps count 0
    (respectively count = size) and still holds the cells to come. *)
Lemma mark_safes_ind (I : AI → Prop) i :
  (∀ st c s, I st → knowledge st !! i = Some s → count s = 0 →
             c ∈ cells s → I (ai_mark_safe st c)) →
  ∀ l st s, NoDup l → I st → knowledge st !! i = Some s → count s = 0 →
            (∀ c, c ∈ l → c ∈ cells s) → I (foldl ai_mark_safe st l).
Proof.
  intros Hstep l. induction l as [|c l IH]; intros st s Hnd HI Hi Hc Hl.
  { done. }
  simpl. apply NoDup_cons in Hnd as [Hc_l Hnd].
  apply (IH _ (mark_safe c s)); [done| |..].
  - eapply Hstep; [done..|]. apply Hl. by left.
  - simpl. by rewrite list_lookup_fmap, Hi.
  - by rewrite count_mark_safe.
  - intros c' Hc'. rewrite cells_mark_safe.
    apply elem_of_difference. split; [apply Hl; by right|].
    intros ->%elem_of_singleton. done.
Qed.

Lemma mark_mines_ind (I : AI → Prop) i :
  (∀ st c s, I st → knowledge st !! i = Some s →
             count s = len (cells s) → c ∈ cells s →
             I (ai_mark_mine st c)) →
  ∀ l st s, NoDup l → I st → knowledge st !! i = Some s →
            count s = len (cells s) →
            (∀ c, c ∈ l → c ∈ cells s) → I (foldl ai_mark_mine st l).
Proof.
  intros Hstep l. induction l as [|c l IH]; intros st s Hnd HI Hi Hc Hl.
  { done. }
  simpl. apply NoDup_cons in Hnd as [Hc_l Hnd].
  assert (c ∈ cells s) as Hin by (apply Hl; by left).
  apply (IH _ (mark_mine c s)); [done| |..].
  - by eapply Hstep.
  - simpl. by rewrite list_lookup_fmap, Hi.
  - rewrite mark_mine_in by done. simpl. rewrite len_remove by done. lia.
  - intros c' Hc'. rewrite cells_mark_mine.
    apply elem_of_difference. split; [apply Hl; by right|].
    intros ->%elem_of_singleton. done.
Qed.

(** One round of the extraction loop, and the whole loop. *)
Lemma visit_ind (I : AI → Prop) i st :
  (∀ st c s, I st → knowledge st !! i = Some s → count s = 0 →
             c ∈ cells s → I (ai_mark_safe st c)) →
  (∀ st c s, I st → knowledge st !! i = Some s →
             count s = len (cells s) → c ∈ cells s →
             I (ai_mark_mine st c)) →
  I st → I (visit st i).
Proof.
  intros Hsafe Hmine HI. unfold visit.
  destruct (knowledge st !! i) as [s|] eqn:Hi; [|done].
  set (st1 := if truthy (known_safes s) then _ else st).
  assert (I st1) as HI1.
  { subst st1. destruct (truthy (known_safes s)) eqn:Ht; [|done].
    apply known_safes_truthy in Ht as (Hc & _ & ->). simpl.
    eapply (mark_safes_ind I i Hsafe); [apply NoDup_elements|done..|].
    intros c. by rewrite elem_of_elements. }
  destruct (knowledge st1 !! i) as [s1|] eqn:Hi1; [|done].
  destruct (truthy (known_mines s1)) eqn:Ht; [|done].
  apply known_mines_truthy in Ht as (_ & Hc & _ & ->). simpl.
  eapply (mark_mines_ind I i Hmine); [apply NoDup_elements|done..|].
  intros c. by rewrite elem_of_elements.
Qed.

Lemma visits_ind (I : AI → Prop) (idx : list nat) st :
  (∀ st c s, I st → s ∈ knowledge st → count s = 0 →
             c ∈ cells s → I (ai_mark_safe st c)) →
  (∀ st c s, I st → s ∈ knowledge st →
             count s = len (cells s) → c ∈ cells s →
             I (ai_mark_mine st c)) →
  I st → I (foldl visit st idx).
Proof.
  intros Hsafe Hmine. revert st.
  induction idx as [|i idx IH]; intros st HI; simpl; [done|].
  apply IH. apply visit_ind; [| |done].
  - intros st' c s HI' Hi. eapply Hsafe; [done|].
    by eapply list_elem_of_lookup_2.
  - intros st' c s HI' Hi. eapply Hmine; [done|].
    by eapply list_elem_of_lookup_2.
Qed.

Lemma extract_ind (I : AI → Prop) st :
  (∀ st c s, I st → s ∈ knowledge st → count s = 0 →
             c ∈ cells s → I (ai_mark_safe st c)) →
  (∀ st c s, I st → s ∈ knowledge st →
             count s = len (cells s) → c ∈ cells s →
             I (ai_mark_mine st c)) →
  I st → I (extract st).
Proof. apply visits_ind. Qed.

Lemma extends_refl st : extends st st.
Proof. by unfold extends. Qed.

Lemma extends_mark_safe st st' c :
  extends st st' → extends st (ai_mark_safe st' c).
Proof.
  unfold extends. simpl. rewrite length_fmap.
  intros (? & ? & ? & ? & ? & ?). split_and!; [done..|set_solver|done|done].
Qed.

Lemma extends_mark_mine st st' c :
  extends st st' → extends st (ai_mark_mine st' c).
Proof.
  unfold extends. simpl. rewrite length_fmap.
  intros (? & ? & ? & ? & ? & ?). split_and!; [done..|set_solver|done].
Qed.

Lemma visits_extends idx st : extends st (foldl visit st idx).
Proof.
  apply (visits_ind (extends st)); [| |apply extends_refl].
  - intros st' c s H _ _ _. by apply extends_mark_safe.
  - intros st' c s H _ _ _. by apply extends_mark_mine.
Qed.

Lemma extract_extends st : extends st (extract st).
Proof. apply visits_extends. Qed.

(** The markings of a whole list of cells, field by field. *)
Lemma mark_safes_safes l st :
  safes (foldl ai_mark_safe st l) = list_to_set l ∪ safes st.
Proof.
  revert st. induction l as [|c l IH]; intros st; simpl.
  { set_solver. }
  rewrite IH. simpl. set_solver.
Qed.

Lemma mark_mines_mines l st :
  mines (foldl ai_mark_mine st l) = list_to_set l ∪ mines st.
Proof.
  revert st. induction l as [|c l IH]; intros st; simpl.
  { set_solver. }
  rewrite IH. simpl. set_solver.
Qed.

Lemma mark_mines_safes l st : safes (foldl ai_mark_mine st l) = safes st.
Proof.
  revert st. induction l as [|c l IH]; intros st; simpl; [done|].
  by rewrite IH.
Qed.

Lemma mark_safes_mines l st : mines (foldl ai_mark_safe st l) = mines st.
Proof.
  revert st. induction l as [|c l IH]; intros st; simpl; [done|].
  by rewrite IH.
Qed.

End extraction.

(** ** add_knowledge as a whole *)

Section add_knowledge.

Implicit Types (st : AI) (s : Sentence) (cell p : Cell).

Lemma around_eq cell :
  around cell =
    [(cell.1 - 1, cell.2 - 1); (cell.1 - 1, 1 + (cell.2 - 1));
     (cell.1 - 1, 2 + (cell.2 - 1));
     (1 + (cell.1 - 1), cell.2 - 1); (1 + (cell.1 - 1), 1 + (cell.2 - 1));
     (1 + (cell.1 - 1), 2 + (cell.2 - 1));
     (2 + (cell.1 - 1), cell.2 - 1); (2 + (cell.1 - 1), 1 + (cell.2 - 1));
     (2 + (cell.1 - 1), 2 + (cell.2 - 1))].
Proof.
  unfold around, range.
  replace (cell.1 + 2 - (cell.1 - 1)) with 3 by lia.
  replace (cell.2 + 2 - (cell.2 - 1)) with 3 by lia.
  reflexivity.
Qed.

Lemma around_NoDup cell : NoDup (around cell).
Proof.
  rewrite around_eq.
  repeat (apply NoDup_cons; split;
          [rewrite ?elem_of_cons, elem_of_nil;
           intros H; repeat destruct H as [H|H]; try done;
           injection H; lia|]).
  apply NoDup_nil_2.
Qed.

(** The neighbour loop only collects cells of the board that are neither
    known mines nor known safe. *)
Lemma neighbour_loop_cells st cell l acc p :
  p ∈ fst (foldl (neighbour_step st cell) acc l) →
  p ∈ fst acc ∨
  (p ∈ l ∧ p ≠ cell ∧ in_bounds st p = true
   ∧ (p ∉ mines st) ∧ (p ∉ safes st)).
Proof.
  revert acc. induction l as [|q l IH]; intros acc; simpl; [by left|].
  intros [Hp|Hp]%IH; [|right; set_solver].
  unfold neighbour_step in Hp.
  destruct (decide (q = cell)); [by left|].
  destruct (in_bounds st q) eqn:Hq; [|by left]. simpl in Hp.
  repeat case_decide; try (by left).
  apply elem_of_union in Hp as [->%elem_of_singleton|?]; [|by left].
  right. split_and!; [by left|done..].
Qed.

Lemma neighbours_cells st cell n p :
  p ∈ fst (neighbours st cell n) →
  p ∈ around cell ∧ p ≠ cell ∧ in_bounds st p = true
  ∧ (p ∉ mines st) ∧ (p ∉ safes st).
Proof.
  intros [Hp|Hp]%neighbour_loop_cells; [|done]. simpl in Hp. set_solver.
Qed.

Lemma add_knowledge_inv st cell n st' :
  add_knowledge st cell n = Some st' →
  let st2 := probed st cell in
  let cs := (neighbours st2 cell n).1 in
  let k := (neighbours st2 cell n).2 in
  let kb3 := remove_empty (knowledge st2) in
  (cs = ∅ ∧ st' = with_knowledge st2 kb3)
  ∨ (cs ≠ ∅ ∧ ∃ kb',
       subset_loop cs k (kb3 ++ [mkSentence cs k])
         (seq 0 (length (kb3 ++ [mkSentence cs k]))) = Some kb'
       ∧ st' = extract (with_knowledge st2 kb')).
Proof.
  unfold add_knowledge.
  destruct (neighbours (probed st cell) cell n) as [cs k]. simpl.
  case_decide as Hlen.
  - intros Hloop. right. split; [by rewrite <-len_empty_iff|].
    destruct (subset_loop _ _ _ _) as [kb'|]; simpl in *; [|done].
    exists kb'. split; [done|]. by injection Hloop as <-.
  - intros [= <-]. left. split; [|reflexivity].
    apply len_empty_iff. lia.
Qed.

(** The call always returns: the subset loop reads inside the list and
    removes only what is there. *)
Lemma add_knowledge_total st cell n : is_Some (add_knowledge st cell n).
Proof.
  unfold add_knowledge.
  destruct (neighbours _ cell n) as [cs k]. simpl.
  case_decide; [|done].
  match goal with
  | |- is_Some (subset_loop ?cs ?k ?kb ?idx ≫= _) =>
      destruct (subset_loop_total cs k idx kb) as (kb' & -> & _)
  end; [|done].
  apply Forall_forall. intros i Hi%elem_of_seq. lia.
Qed.

End add_knowledge.

(** ** Drivers *)

Lemma play_snoc g probes cell :
  play g (probes ++ [cell])
  = play g probes ≫= λ st, add_knowledge st cell (Game.nearby_mines g cell).
Proof. unfold play. by rewrite foldl_app. Qed.

Lemma play_driven g probes st :
  Forall (λ cell, Game.in_bounds g cell.1 cell.2 = true
                  ∧ Game.is_mine g cell = false) probes →
  play g probes = Some st → driven g st.
Proof.
  revert st. induction probes as [|cell probes IH] using rev_ind; intros st.
  { intros _ [= <-]. apply driven_init. }
  intros [Hprobes [[Hin Hmine] _]%Forall_cons]%Forall_app.
  rewrite play_snoc.
  destruct (play g probes) as [st0|]; simpl; [|done].
  intros Hadd. eapply driven_add; [by apply IH|done..].
Qed.

Lemma replay_reachable h w calls st :
  replay h w calls = Some st → reachable h w st.
Proof.
  revert st. induction calls as [|call calls IH] using rev_ind; intros st.
  { intros [= <-]. apply reachable_init. }
  unfold replay. rewrite foldl_app. simpl. fold (replay h w calls).
  destruct (replay h w calls) as [st0|]; simpl; [|done].
  intros Hadd. eapply reachable_add; [by apply IH|done].
Qed.

(** ** Sentence.mark_mine and Sentence.mark_safe *)

(** C9.  [mark_mine(cell)] removes [cell] from the cell set and lowers
    [count] by one when [cell] is a member, and does nothing when it is not;
    [mark_safe(cell)] removes [cell] and leaves [count] as it is when [cell]
    is a member, and does nothing when it is not. *)
Theorem sentence_mark_spec (s : Sentence) (cell : Cell) :
  (cell ∈ cells s →
     cells (mark_mine cell s) = cells s ∖ {[cell]}
     ∧ (cell ∉ cells (mark_mine cell s))
     ∧ count (mark_mine cell s) = count s - 1)
  ∧ (cell ∉ cells s → mark_mine cell s = s)
  ∧ (cell ∈ cells s →
       cells (mark_safe cell s) = cells s ∖ {[cell]}
       ∧ (cell ∉ cells (mark_safe cell s))
       ∧ count (mark_safe cell s) = count s)
  ∧ (cell ∉ cells s → mark_safe cell s = s).
Proof.
  split_and!.
  - intros Hin. rewrite mark_mine_in by done. simpl. set_solver.
  - apply mark_mine_notin.
  - intros Hin. rewrite mark_safe_in by done. simpl. set_solver.
  - apply mark_safe_notin.
Qed.

Lemma sentence_mark_spec_witness :
  let s := mkSentence {[(0, 0); (0, 1)]} 1 in
  cells (mark_mine (0, 0) s) = cells s ∖ {[(0, 0)]}
  ∧ ((0, 0) ∉ cells (mark_mine (0, 0) s))
  ∧ count (mark_mine (0, 0) s) = count s - 1.
Proof.
  intros s.
  apply (proj1 (sentence_mark_spec s (0, 0))).
  apply (bool_decide_unpack _). vm_compute. exact I.
Defined.

(** C3 as it is written fails: a sentence that satisfies
    [0 <= count <= |cells|] loses the bound when a cell is marked safe
    although the sentence says that every cell is a mine. *)
Lemma sentence_invariant_counterexample :
  let s := mkSentence {[(0, 0); (0, 1)]} 2 in
  0 ≤ count s ≤ len (cells s)
  ∧ ¬ (0 ≤ count (mark_safe (0, 0) s) ≤ len (cells (mark_safe (0, 0) s))).
Proof. vm_compute. split; [split; discriminate|]. intros [_ H]. by apply H. Qed.

(** C3, amended.  Let [M] be a mine layout under which the sentence is true
    (its count is the number of its cells in [M]).  After every call of a
    sequence of [mark_mine] and [mark_safe] calls that agree with [M]
    ([mark_mine] on mines, [mark_safe] on other cells only) the sentence
    satisfies [0 <= count <= |cells|]. *)
Theorem sentence_invariant_truthful (M : gset Cell) (s : Sentence)
    (ms : list mark) (k : nat) :
  holds M s → Forall (agrees M) ms →
  0 ≤ count (foldl apply_mark s (take k ms))
    ≤ len (cells (foldl apply_mark s (take k ms))).
Proof.
  intros Hs Hms. apply (holds_bounds M).
  apply holds_apply_marks; [done|]. by apply Forall_take.
Qed.

Lemma sentence_invariant_truthful_witness :
  let s := mkSentence {[(0, 0); (0, 1)]} 1 in
  let ms := [MarkSafe (0, 1); MarkMine (0, 0)] in
  0 ≤ count (foldl apply_mark s (take 2 ms))
    ≤ len (cells (foldl apply_mark s (take 2 ms))).
Proof.
  intros s ms.
  apply (sentence_invariant_truthful {[(0, 0)]} s ms 2).
  - vm_compute. reflexivity.
  - repeat constructor; simpl; apply (bool_decide_unpack _); vm_compute;
      exact I.
Defined.

(** ** make_safe_move and make_random_move *)

Lemma make_random_move_None st r :
  (make_random_move st r).1 = None ↔ candidates st = ∅.
Proof.
  unfold make_random_move. simpl. rewrite <-len_empty_iff.
  case_decide as Hlen; [done|]. split; [|done].
  intros Hnone%lookup_ge_None. exfalso.
  assert (length (elements (candidates st)) ≠ 0%nat) as Hne.
  { unfold len, size, set_size in Hlen. simpl in Hlen. lia. }
  pose proof (Nat.mod_upper_bound r _ Hne). lia.
Qed.

Lemma make_random_move_Some st r p :
  (make_random_move st r).1 = Some p → p ∈ candidates st.
Proof.
  unfold make_random_move. simpl. case_decide; [done|].
  intros Hp%list_elem_of_lookup_2. by apply elem_of_elements.
Qed.

Lemma make_random_move_singleton st p :
  candidates st = {[p]} → ∀ r, (make_random_move st r).1 = Some p.
Proof.
  intros Hc r. unfold make_random_move. rewrite Hc. cbn [fst].
  rewrite decide_False.
  - rewrite elements_singleton. cbn [length]. by rewrite Nat.mod_1_r.
  - unfold len. rewrite size_singleton. lia.
Qed.

(** On a square board the set of the code is the set of the
    specification. *)
Lemma candidates_square st :
  height st = width st → candidates st = spec_unexplored st.
Proof.
  intros Hsq. unfold candidates, spec_unexplored, setall, spec_all_cells.
  by rewrite Hsq.
Qed.

Lemma random_move_square st r :
  height st = width st →
  ((make_random_move st r).1 = None ↔ spec_unexplored st = ∅)
  ∧ ∀ p, (make_random_move st r).1 = Some p → p ∈ spec_unexplored st.
Proof.
  intros Hsq. rewrite <-(candidates_square st Hsq). split.
  - apply make_random_move_None.
  - intros p. apply make_random_move_Some.
Qed.

(** C5 fails in the code on boards that are not square: the loops that
    build [setall] run the first coordinate over [range(width)] and the
    second over [range(height)].  On a 1 x 2 board, after the observation
    [((0,0), 0)] every cell of the board is known safe, so the set of the
    specification is empty, and [make_random_move] returns [(1,0)], which is
    not a cell of the board. *)
Theorem random_move_swapped_dimensions :
  let g := Game.Build 1 2 ∅ in
  ∃ st, play g [(0, 0)] = Some st
        ∧ driven g st
        ∧ spec_unexplored st = ∅
        ∧ in_bounds st (1, 0) = false
        ∧ ∀ r, (make_random_move st r).1 = Some (1, 0).
Proof.
  intros g. set (st := default (init 0 0) (play g [(0, 0)])).
  assert (play g [(0, 0)] = Some st) as Hst by by_compute.
  exists st. split; [done|]. split.
  { apply (play_driven g [(0, 0)] st); [by_compute|done]. }
  split_and!; [by_compute..|].
  apply make_random_move_singleton. by_compute.
Qed.

(** C10.  [make_safe_move] and [make_random_move] leave the engine as it
    is: [moves_made], [safes], [mines] and the knowledge base are the same
    after the call, whatever the state (reachable or not) and whatever the
    draw. *)
Theorem moves_leave_state (st : AI) (r : nat) :
  (make_safe_move st).2 = st ∧ (make_random_move st r).2 = st.
Proof. split; reflexivity. Qed.

(** ** Cells outside the board *)

Lemma kb_on_board_mark_safe st c :
  kb_on_board st → kb_on_board (ai_mark_safe st c).
Proof.
  intros Hst s p. simpl. intros (s0 & -> & Hs0)%list_elem_of_fmap.
  rewrite cells_mark_safe. intros [Hp _]%elem_of_difference.
  by apply (Hst s0).
Qed.

Lemma kb_on_board_mark_mine st c :
  kb_on_board st → kb_on_board (ai_mark_mine st c).
Proof.
  intros Hst s p. simpl. intros (s0 & -> & Hs0)%list_elem_of_fmap.
  rewrite cells_mark_mine. intros [Hp _]%elem_of_difference.
  by apply (Hst s0).
Qed.

(** C6 as it is written fails: [add_knowledge] has no check of the cell.  On
    a fresh 2 x 2 board the call with the cell [(-1,0)] returns normally
    and changes the engine. *)
Lemma out_of_bounds_cell_accepted :
  in_bounds (init 2 2) (-1, 0) = false
  ∧ ∃ st', add_knowledge (init 2 2) (-1, 0) 0 = Some st'
           ∧ st' ≠ init 2 2
           ∧ (-1, 0) ∈ moves_made st' ∧ (0, 0) ∈ safes st'.
Proof.
  split; [by_compute|].
  exists (default (init 0 0) (add_knowledge (init 2 2) (-1, 0) 0)).
  by_compute.
Qed.

(** C6, amended.  [add_knowledge] does not check the cell: for every cell,
    on the board or not, the call returns normally, the cell is in
    [moves_made] and in [safes] afterwards, and sentences are built from
    cells of the board only: if every sentence of the knowledge base held
    only cells of the board before the call, so it is after the call. *)
Theorem add_knowledge_unchecked (st : AI) (cell : Cell) (n : Z) :
  ∃ st', add_knowledge st cell n = Some st'
         ∧ cell ∈ moves_made st' ∧ cell ∈ safes st'
         ∧ (kb_on_board st → kb_on_board st').
Proof.
  destruct (add_knowledge_total st cell n) as [st' Hst']. exists st'.
  split; [done|].
  apply add_knowledge_inv in Hst'. simpl in Hst'.
  set (st2 := probed st cell) in *.
  assert (kb_on_board st → kb_on_board st2) as H2.
  { intros Hst. by apply kb_on_board_mark_safe. }
  assert (cell ∈ moves_made st2 ∧ cell ∈ safes st2) as [Hm2 Hs2].
  { simpl. set_solver. }
  destruct Hst' as [[_ ->]|(_ & kb' & Hloop & ->)].
  - split_and!; [done..|]. intros Hst s p Hs Hp.
    apply (H2 Hst s p); [|done].
    eapply elem_of_sublist; [done|]. apply remove_empty_from_sublist.
  - pose proof (extract_extends (with_knowledge st2 kb'))
      as (Hh & Hw & Hmoves & Hsafes & _).
    split_and!.
    + by rewrite Hmoves.
    + by apply Hsafes.
    + intros Hst.
      apply (extract_ind (λ st', height st' = height st2
                                 ∧ width st' = width st2 ∧ kb_on_board st')).
      * intros st' c s (? & ? & ?) _ _ _. split_and!; [done..|].
        by apply kb_on_board_mark_safe.
      * intros st' c s (? & ? & ?) _ _ _. split_and!; [done..|].
        by apply kb_on_board_mark_mine.
      * split_and!; [done..|]. intros s p Hs Hp. simpl in Hs.
        change (in_bounds st2 p = true).
        revert s Hs p Hp.
        apply (proj1 (Forall_forall
                 (λ s, ∀ p, p ∈ cells s → in_bounds st2 p = true) kb')).
        eapply (subset_loop_Forall
                  (λ s, ∀ p, p ∈ cells s → in_bounds st2 p = true));
          [| | |done].
        -- intros s _ _ p. simpl. intros [Hp _]%elem_of_difference.
           by apply neighbours_cells in Hp as (_ & _ & ? & _).
        -- intros s Hs _ p. simpl. intros [Hp _]%elem_of_difference. auto.
        -- apply Forall_app. split.
           ++ apply Forall_forall. intros s Hs p Hp.
              apply (H2 Hst s p); [|done].
              eapply elem_of_sublist; [done|].
              apply remove_empty_from_sublist.
           ++ apply Forall_singleton. simpl. intros p Hp.
              by apply neighbours_cells in Hp as (_ & _ & ? & _).
Qed.

Lemma add_knowledge_unchecked_witness :
  ∃ st', add_knowledge (init 2 2) (-1, 0) 0 = Some st' ∧ kb_on_board st'.
Proof.
  destruct (add_knowledge_unchecked (init 2 2) (-1, 0) 0)
    as (st' & Hst' & _ & _ & Hkb).
  exists st'. split; [exact Hst'|]. apply Hkb.
  intros s p Hs. simpl in Hs. by apply elem_of_nil in Hs.
Defined.

(** ** Sentences with an empty cell set *)

















(** The pass can step over an empty sentence: after a removal the next
    sentence moves to the index just visited.  Of two empty sentences in a
    row the second stays. *)
Example remove_empty_skips :
  remove_empty [mkSentence ∅ 0; mkSentence ∅ 0; mkSentence {[(0, 0)]} 1]
  = [mkSentence ∅ 0; mkSentence {[(0, 0)]} 1].
Proof. by vm_compute. Qed.

(** This happens with a truthful driver too.  On a 1 x 4 board with a mine
    at [(0,2)], the observations for [(0,1)] and [(0,3)] leave two sentences
    with no cells; the pass of the next call, for [(0,0)], deletes the first
    and steps over the second, and the call ends there. *)
Example remove_empty_skips_in_play :
  let g := Game.Build 1 4 {[(0, 2)]} in
  (knowledge <$> play g [(0, 1); (0, 3)])
  = Some [mkSentence ∅ 0; mkSentence ∅ 0]
  ∧ (knowledge <$> play g [(0, 1); (0, 3); (0, 0)])
    = Some [mkSentence ∅ 0].
Proof. intros g. by_compute. Qed.

(** ** Soundness of the knowledge base for a truthful driver *)

Section soundness.

Variable g : Game.t.

Local Abbreviation M := (Game.mines g).

Lemma holds_zero s c : holds M s → count s = 0 → c ∈ cells s → c ∉ M.
Proof.
  unfold holds. intros Hs Hc Hin HM. rewrite Hc in Hs.
  symmetry in Hs. apply len_empty_iff in Hs. set_solver.
Qed.

Lemma holds_full s c :
  holds M s → count s = len (cells s) → c ∈ cells s → c ∈ M.
Proof.
  unfold holds, len. intros Hs Hc Hin. rewrite Hc in Hs.
  assert (cells s ∩ M ≡ cells s) as Heq.
  { apply set_subseteq_size_equiv; [set_solver|lia]. }
  set_solver.
Qed.

Lemma holds_difference s1 s2 :
  holds M s1 → holds M s2 → cells s1 ⊆ cells s2 →
  holds M (mkSentence (cells s2 ∖ cells s1) (count s2 - count s1)).
Proof.
  unfold holds. simpl. intros -> -> Hsub.
  replace ((cells s2 ∖ cells s1) ∩ M)
    with ((cells s2 ∩ M) ∖ (cells s1 ∩ M)) by set_solver.
  rewrite len_difference by set_solver. done.
Qed.

Lemma sound_mark_safe st c :
  sound g st → c ∉ M → sound g (ai_mark_safe st c).
Proof.
  intros (Hh & Hw & Hkb & Hsafe & Hmine) Hc. split_and!; simpl; try done.
  - apply Forall_fmap. eapply Forall_impl; [done|]. simpl.
    intros s. by apply holds_mark_safe.
  - set_solver.
Qed.

Lemma sound_mark_mine st c :
  sound g st → c ∈ M → sound g (ai_mark_mine st c).
Proof.
  intros (Hh & Hw & Hkb & Hsafe & Hmine) Hc. split_and!; simpl; try done.
  - apply Forall_fmap. eapply Forall_impl; [done|]. simpl.
    intros s. by apply holds_mark_mine.
  - set_solver.
Qed.

Lemma sound_visits st idx : sound g st → sound g (foldl visit st idx).
Proof.
  apply visits_ind.
  - intros st' c s Hst' Hs Hc Hin. apply sound_mark_safe; [done|].
    destruct Hst' as (_ & _ & Hkb & _).
    rewrite Forall_forall in Hkb. apply (holds_zero s); auto.
  - intros st' c s Hst' Hs Hc Hin. apply sound_mark_mine; [done|].
    destruct Hst' as (_ & _ & Hkb & _).
    rewrite Forall_forall in Hkb. apply (holds_full s); auto.
Qed.

(** The neighbour loop, run side by side with the loop of
    [nearby_mines]: the count that is left is the number of mines among
    the cells collected. *)
Lemma neighbour_loop_holds st cell l cs k m :
  sound g st → NoDup l → (∀ p, p ∈ l → p ∉ cs) →
  let r := foldl (neighbour_step st cell) (cs, k) l in
  r.2 - len (r.1 ∩ M) + foldl (Game.nearby_step g cell) m l
  = k - len (cs ∩ M) + m.
Proof.
  intros (Hh & Hw & _ & Hsafe & Hmine) Hnd. revert cs k m.
  induction Hnd as [|p l Hp Hnd IH]; intros cs k m Hfresh; simpl; [lia|].
  assert (p ∉ cs) as Hpcs by (apply Hfresh; by left).
  unfold neighbour_step at 2 4. unfold Game.nearby_step at 2.
  destruct (decide (p = cell)) as [->|Hne].
  { apply IH. intros q Hq. apply Hfresh. by right. }
  replace (Game.in_bounds g p.1 p.2) with (in_bounds st p)
    by (unfold in_bounds, Game.in_bounds; by rewrite Hh, Hw).
  destruct (in_bounds st p).
  2:{ apply IH. intros q Hq. apply Hfresh. by right. }
  simpl. unfold Game.board.
  replace (p.1, p.2) with p by (by destruct p).
  destruct (decide (p ∈ M)) as [HpM|HpM].
  - rewrite bool_decide_eq_true_2 by done.
    destruct (decide (p ∈ mines st)) as [Hpm|Hpm].
    + rewrite decide_False by (intros ?; done).
      rewrite IH by (intros q Hq; apply Hfresh; by right). lia.
    + rewrite decide_True by done.
      rewrite decide_True by set_solver.
      rewrite IH.
      2:{ intros q Hq ?%elem_of_union.
          destruct H as [->%elem_of_singleton|?]; [done|].
          by apply (Hfresh q); [right|]. }
      replace (({[p]} ∪ cs) ∩ M) with ({[p]} ∪ (cs ∩ M)) by set_solver.
      unfold len.
      rewrite (size_union {[p]} (cs ∩ M)) by set_solver.
      rewrite size_singleton. lia.
  - rewrite bool_decide_eq_false_2 by done.
    assert (p ∉ mines st) as Hpm by set_solver.
    rewrite decide_True by done.
    rewrite (decide_False (P := p ∈ mines st)) by done.
    destruct (decide (p ∉ safes st)).
    + rewrite IH.
      2:{ intros q Hq ?%elem_of_union.
          destruct H as [->%elem_of_singleton|?]; [done|].
          by apply (Hfresh q); [right|]. }
      replace (({[p]} ∪ cs) ∩ M) with (cs ∩ M) by set_solver. done.
    + apply IH. intros q Hq. apply Hfresh. by right.
Qed.

Lemma neighbours_holds st cell :
  sound g st →
  let r := neighbours st cell (Game.nearby_mines g cell) in
  holds M (mkSentence r.1 r.2).
Proof.
  intros Hst. unfold holds, neighbours, Game.nearby_mines. simpl.
  assert (∀ p, p ∈ around cell → p ∉ (∅ : gset Cell)) as Hfresh
    by set_solver.
  pose proof (neighbour_loop_holds st cell (around cell) ∅
                (foldl (Game.nearby_step g cell) 0 (around cell)) 0
                Hst (around_NoDup cell) Hfresh) as H.
  simpl in H.
  replace (∅ ∩ M) with (∅ : gset Cell) in H by set_solver.
  assert (len (∅ : gset Cell) = 0) as H0 by (by apply len_empty_iff).
  lia.
Qed.

Lemma sound_add_knowledge st cell st' :
  sound g st → Game.is_mine g cell = false →
  add_knowledge st cell (Game.nearby_mines g cell) = Some st' →
  sound g st'.
Proof.
  intros Hst Hcell Hadd.
  assert (cell ∉ M) as HcM.
  { unfold Game.is_mine, Game.board in Hcell.
    apply bool_decide_eq_false in Hcell. by destruct cell. }
  assert (sound g (probed st cell)) as H2.
  { apply sound_mark_safe; [|done].
    destruct Hst as (? & ? & ? & ? & ?). by split_and!. }
  pose proof (neighbours_holds (probed st cell) cell H2) as Hnew.
  apply add_knowledge_inv in Hadd. simpl in Hadd, Hnew.
  set (st2 := probed st cell) in *.
  destruct H2 as (Hh & Hw & Hkb & Hsafe & Hmine).
  assert (Forall (holds M) (remove_empty (knowledge st2))) as Hkb3.
  { apply Forall_forall. intros s Hs.
    rewrite Forall_forall in Hkb. apply Hkb.
    eapply elem_of_sublist; [done|]. apply remove_empty_from_sublist. }
  destruct Hadd as [[_ ->]|(_ & kb' & Hloop & ->)].
  { by split_and!. }
  apply sound_visits. split_and!; try done. simpl.
  eapply (subset_loop_Forall (holds M)); [| | |done].
  - intros s Hs Hsub. by apply (holds_difference s (mkSentence _ _)).
  - intros s Hs Hsub. by apply (holds_difference (mkSentence _ _) s).
  - apply Forall_app. split; [done|]. by apply Forall_singleton.
Qed.

Lemma driven_sound st : driven g st → sound g st.
Proof.
  induction 1 as [|st cell st' _ IH _ Hmine Hadd| |]; [|by eauto using sound_add_knowledge|done..].
  split_and!; simpl; done.
Qed.

End soundness.

(** ** The zero rule *)

Lemma visit_zero st i s :
  knowledge st !! i = Some s → count s = 0 → cells s ⊆ safes (visit st i).
Proof.
  intros Hi Hc. unfold visit. rewrite Hi.
  destruct (decide (cells s = ∅)) as [->|Hne]; [set_solver|].
  rewrite known_safes_zero by done.
  set (st1 := foldl ai_mark_safe st _).
  assert (cells s ⊆ safes st1) as H1.
  { subst st1. rewrite mark_safes_safes.
    unfold known_safes. rewrite decide_True by done. simpl.
    intros p Hp. apply elem_of_union. left.
    by apply elem_of_list_to_set, elem_of_elements. }
  destruct (knowledge st1 !! i) as [s1|]; [|done].
  destruct (truthy (known_mines s1)); [|done].
  by rewrite mark_mines_safes.
Qed.

(** The full rule: the visit of a sentence whose count is the size of its
    cell set, and not 0, marks every cell of the sentence as a mine. *)
Lemma visit_full st i s :
  knowledge st !! i = Some s → count s = len (cells s) → count s ≠ 0 →
  cells s ⊆ mines (visit st i).
Proof.
  intros Hi Hc Hne. unfold visit. rewrite Hi.
  assert (cells s ≠ ∅) as Hcells.
  { intros Hempty%len_empty_iff. lia. }
  assert (truthy (known_safes s) = false) as ->.
  { unfold known_safes. rewrite decide_False, decide_True by done.
    simpl. by apply bool_decide_eq_false_2; intros []. }
  rewrite Hi, known_mines_full by done.
  unfold known_mines. rewrite decide_False, decide_True by done. simpl.
  rewrite mark_mines_mines. intros p Hp. apply elem_of_union. left.
  by apply elem_of_list_to_set, elem_of_elements.
Qed.

(** The visit of a sentence that is neither leaves the engine as it is. *)
Lemma visit_undecided st i s :
  knowledge st !! i = Some s → count s ≠ 0 → count s ≠ len (cells s) →
  visit st i = st.
Proof.
  intros Hi H0 Hlen. unfold visit. rewrite Hi.
  assert (known_safes s = None) as ->.
  { unfold known_safes. by rewrite !decide_False. }
  simpl. rewrite Hi.
  assert (known_mines s = None) as ->.
  { unfold known_mines. by rewrite !decide_False. }
  done.
Qed.

Lemma extract_zero (g : Game.t) st s :
  sound g st → s ∈ knowledge st → count s = 0 →
  cells s ⊆ safes (extract st).
Proof.
  intros Hst [i Hi]%list_elem_of_lookup_1 Hc.
  pose proof (lookup_lt_Some _ _ _ Hi) as Hlt.
  unfold extract.
  replace (length (knowledge st))
    with (i + S (length (knowledge st) - S i))%nat by lia.
  rewrite seq_app, foldl_app. simpl.
  set (J := λ st', sound g st' ∧ ∃ s', knowledge st' !! i = Some s'
                   ∧ count s' = 0 ∧ cells s ⊆ cells s' ∪ safes st').
  assert (J (foldl visit st (seq 0 i))) as (_ & s' & Hs' & Hc' & Hsub).
  { apply visits_ind.
    - intros st' c t (Hsound & s' & Hs' & Hc' & Hsub) Ht Hct Hin.
      assert (c ∉ Game.mines g) as HcM.
      { destruct Hsound as (_ & _ & Hkb & _).
        rewrite Forall_forall in Hkb. apply (holds_zero g t); auto. }
      split; [by apply sound_mark_safe|].
      exists (mark_safe c s'). simpl.
      rewrite list_lookup_fmap, Hs', count_mark_safe, cells_mark_safe.
      split_and!; [done..|].
      intros p Hp. destruct (decide (p = c)); set_solver.
    - intros st' c t (Hsound & s' & Hs' & Hc' & Hsub) Ht Hct Hin.
      assert (c ∈ Game.mines g) as HcM.
      { destruct Hsound as (_ & _ & Hkb & _).
        rewrite Forall_forall in Hkb. apply (holds_full g t); auto. }
      split; [by apply sound_mark_mine|].
      exists s'. simpl. rewrite list_lookup_fmap, Hs'. simpl.
      split_and!; [|done..]. f_equal. apply mark_mine_notin.
      intros Hcs'. apply (holds_zero g s' c); [|done..].
      destruct Hsound as (_ & _ & Hkb & _).
      rewrite Forall_forall in Hkb. apply Hkb.
      by eapply list_elem_of_lookup_2.
    - split; [done|]. exists s. split_and!; [done..|set_solver]. }
  set (sta := foldl visit st (seq 0 i)) in *.
  pose proof (visit_zero sta i s' Hs' Hc') as Hvisit.
  pose proof (visits_extends [i] sta) as (_ & _ & _ & Hmono & _).
  pose proof (visits_extends (seq (S i) (length (knowledge st) - S i))
                (visit sta i)) as (_ & _ & _ & Hmono' & _).
  simpl in Hmono. set_solver.
Qed.

(** C8.  On a fresh engine for a 3 x 3 board, [add_knowledge((1,1), 0)]
    leaves the eight neighbours of [(1,1)] in [safes].  In general, when the
    extraction loop visits a sentence with count 0, every cell of its cell
    set is in [safes] afterwards; and when the knowledge base is true of a
    mine layout, every cell of every sentence that has count 0 when the
    loop starts is in [safes] when the loop ends. *)
Theorem zero_rule :
  (∃ st', add_knowledge (init 3 3) (1, 1) 0 = Some st'
          ∧ ∀ p, p ∈ around (1, 1) → p ≠ (1, 1) → p ∈ safes st')
  ∧ (∀ st i s, knowledge st !! i = Some s → count s = 0 →
               cells s ⊆ safes (visit st i))
  ∧ (∀ g st s, sound g st → s ∈ knowledge st → count s = 0 →
               cells s ⊆ safes (extract st)).
Proof.
  split_and!.
  - set (st' := default (init 0 0) (add_knowledge (init 3 3) (1, 1) 0)).
    exists st'. split; [by_compute|].
    assert (safes st' = list_to_set (around (1, 1))) as -> by by_compute.
    intros p Hp _. by apply elem_of_list_to_set.
  - apply visit_zero.
  - apply extract_zero.
Qed.

Lemma zero_rule_witness :
  let s := mkSentence {[(0, 0); (0, 1)]} 0 in
  let st := mkAI 1 3 ∅ ∅ ∅ [s] in
  cells s ⊆ safes (visit st 0) ∧ cells s ⊆ safes (extract st).
Proof.
  intros s st. split.
  - apply (proj1 (proj2 zero_rule) st 0%nat s); reflexivity.
  - apply (proj2 (proj2 zero_rule) (Game.Build 1 3 ∅) st s).
    + split_and!; [reflexivity..| | |].
      * apply Forall_singleton. vm_compute. reflexivity.
      * apply (bool_decide_unpack _). by vm_compute.
      * apply (bool_decide_unpack _). by vm_compute.
    + apply list_elem_of_singleton. reflexivity.
    + reflexivity.
Defined.

(** ** One pass of resolution and extraction *)

(** C1 fails in the code: [add_knowledge] runs the subset loop and the
    extraction loop once.  On a 1 x 5 board with its only mine at [(0,0)],
    after the observations [((0,1), 1)] and [((0,3), 0)] the knowledge base
    holds the sentence [{(0,0)} = 1] and [(0,0)] is not a known mine: the
    sentence was visited while it still was [{(0,0), (0,2)} = 1], and
    [(0,2)] was marked safe by a later visit.  Running the extraction loop
    once more marks [(0,0)] as a mine. *)
Theorem single_pass_not_fixpoint :
  let g := Game.Build 1 5 {[(0, 0)]} in
  ∃ st, play g [(0, 1); (0, 3)] = Some st
        ∧ driven g st
        ∧ knowledge st = [mkSentence {[(0, 0)]} 1; mkSentence ∅ 0]
        ∧ mines st = ∅
        ∧ mines (extract st) = {[(0, 0)]}
        ∧ extract st ≠ st.
Proof.
  intros g.
  set (st := default (init 0 0) (play g [(0, 1); (0, 3)])).
  assert (play g [(0, 1); (0, 3)] = Some st) as Hst by by_compute.
  exists st. split; [done|]. split.
  { apply (play_driven g [(0, 1); (0, 3)] st); [by_compute|done]. }
  by_compute.
Qed.

(** Subset resolution when it is not disturbed: if [A], with three cells and
    count 1, is the only sentence of the knowledge base when the new
    sentence [B = cells A ∪ {c4}] with count 2 is added, the subset loop
    derives [{c4} = 1] and the extraction loop marks [c4] as a mine. *)
Lemma subset_resolution_single st cell n (A : Sentence) (c4 : Cell) :
  remove_empty (knowledge (probed st cell)) = [A] →
  len (cells A) = 3 → count A = 1 → c4 ∉ cells A →
  neighbours (probed st cell) cell n = ({[c4]} ∪ cells A, 2) →
  subset_loop ({[c4]} ∪ cells A) 2 [A; mkSentence ({[c4]} ∪ cells A) 2]
    [0; 1]%nat = Some [A; mkSentence {[c4]} 1; A]
  ∧ ∃ st', add_knowledge st cell n = Some st' ∧ c4 ∈ mines st'.
Proof.
  intros Hkb Hlen Hcount Hc4 Hnb.
  set (cs := {[c4]} ∪ cells A) in *.
  set (B := mkSentence cs 2). set (D := mkSentence {[c4]} 1).
  assert (cells A ≠ ∅) as HA.
  { intros Hempty%len_empty_iff. lia. }
  assert (cells A ≠ cs) as HAcs by set_solver.
  assert (A ≠ B) as HAB by (intros Heq; apply HAcs; by rewrite Heq).
  assert (D ≠ B) as HDB by (by intros [=]).
  assert (({[c4]} : gset Cell) ≠ cs) as HDcs.
  { intros Heq. apply HA. apply leibniz_equiv. intros p.
    assert (p ∈ cs ↔ p ∈ ({[c4]} : gset Cell)) as Hp by (by rewrite <-Heq).
    set_solver. }
  assert (mkSentence (cs ∖ cells A) (2 - count A) = D) as HD.
  { unfold D. rewrite Hcount. f_equal. set_solver. }
  assert (mkSentence (cs ∖ {[c4]}) (2 - 1) = A) as HA'.
  { destruct A as [cA a]. simpl in *. subst a. f_equal. set_solver. }
  assert (subset_step cs 2 [A; B] 0 = Some [A; D]) as H0.
  { rewrite (subset_step_sub cs 2 [A; B] 0 A) by (done || set_solver).
    cbn [app]. rewrite HD. fold B. cbv zeta.
    rewrite decide_True by set_solver. cbn [remove_first].
    by rewrite decide_False, decide_True. }
  assert (subset_step cs 2 [A; D] 1 = Some [A; D; A]) as H1.
  { rewrite (subset_step_sub cs 2 [A; D] 1 D) by (done || set_solver).
    cbn [app cells count D]. rewrite HA'. fold B. cbv zeta.
    rewrite decide_False; [done|].
    rewrite !elem_of_cons, elem_of_nil. naive_solver. }
  assert (subset_loop cs 2 [A; B] [0; 1]%nat = Some [A; D; A]) as Hloop.
  { cbn [subset_loop]. rewrite H0. cbn [mbind option_bind].
    by rewrite H1. }
  split; [done|].
  unfold add_knowledge. rewrite Hnb. cbv beta iota zeta.
  rewrite decide_True.
  2:{ rewrite len_empty_iff. set_solver. }
  cbn [with_knowledge knowledge]. rewrite Hkb. cbn [app length seq].
  fold B. rewrite Hloop. cbn [mbind option_bind].
  eexists. split; [done|].
  set (st0 := with_knowledge _ _).
  unfold extract. change (knowledge st0) with [A; D; A].
  cbn [length seq foldl].
  rewrite (visit_undecided st0 0 A) by (done || lia).
  pose proof (visit_full st0 1 D) as Hfull.
  pose proof (visits_extends [2%nat] (visit st0 1))
    as (_ & _ & _ & _ & Hm & _).
  cbn [foldl] in Hm. apply Hm, Hfull; [done| |done|set_solver].
  cbn [cells count D]. unfold len. by rewrite size_singleton.
Qed.

(** C2 fails in the code: the subset loop can step over the sentence [A].
    On a 5 x 3 board with mines at [(0,1)], [(2,0)], [(3,2)], [(4,1)], after
    the probes [(3,1)], [(3,0)], [(0,2)], [(4,2)], [(1,1)] the probe of
    [(1,0)] produces [B = {(0,0),(0,1),(2,0),(2,1)} = 2] while the knowledge
    base is [[S0; S2; Y; A]] with [A = {(0,0),(2,0),(2,1)} = 1] and
    [Y = {(0,0),(0,1),(1,2),(2,0),(2,1)} = 2].  At index 2 the loop finds
    [Y], a strict superset of [B], appends [Y - B] and removes [Y]; [A] moves
    to index 2 and the loop goes on at index 3.  [{(0,1)} = 1] is not
    derived, [A] and [B] both stay, and [(0,1)] is not marked as a mine (the
    extraction loop later shrinks [S2] to [{(0,1)} = 1], after its visit). *)
Theorem subset_loop_skips_sentence :
  let g := Game.Build 5 3 {[(0, 1); (2, 0); (3, 2); (4, 1)]} in
  let S0 := mkSentence {[(2, 0); (2, 1); (4, 0)]} 1 in
  let S2 := mkSentence {[(0, 1); (1, 2)]} 1 in
  let Y := mkSentence {[(0, 0); (0, 1); (1, 2); (2, 0); (2, 1)]} 2 in
  let A := mkSentence {[(0, 0); (2, 0); (2, 1)]} 1 in
  let B := mkSentence {[(0, 0); (0, 1); (2, 0); (2, 1)]} 2 in
  let D := mkSentence {[(0, 1)]} 1 in
  ∃ st st',
    play g [(3, 1); (3, 0); (0, 2); (4, 2); (1, 1)] = Some st
    ∧ driven g st
    ∧ Game.in_bounds g 1 0 = true ∧ Game.is_mine g (1, 0) = false
    ∧ Game.nearby_mines g (1, 0) = 2
    ∧ remove_empty (knowledge (probed st (1, 0))) = [S0; S2; Y; A]
    ∧ neighbours (probed st (1, 0)) (1, 0) 2 = (cells B, count B)
    ∧ subset_loop (cells B) (count B) [S0; S2; Y; A; B] (seq 0 5)
      = Some [S0; S2; A; B; mkSentence {[(1, 2)]} 0]
    ∧ add_knowledge st (1, 0) 2 = Some st'
    ∧ knowledge st' = [S0; D; A; B; mkSentence ∅ 0]
    ∧ mines st' = {[(3, 2); (4, 1)]}
    ∧ ((0, 1) ∉ mines st').
Proof.
  intros g S0 S2 Y A B D.
  set (probes := [(3, 1); (3, 0); (0, 2); (4, 2); (1, 1)]).
  set (st := default (init 0 0) (play g probes)).
  assert (play g probes = Some st) as Hst by by_compute.
  exists st, (default st (add_knowledge st (1, 0) 2)).
  split; [done|]. split.
  { apply (play_driven g probes st); [by_compute|done]. }
  by_compute.
Qed.

(** * Further properties of the code *)

(** ** The two move methods *)

Lemma elem_of_around cell p :
  p ∈ around cell ↔
  (cell.1 - 1 ≤ p.1 ≤ cell.1 + 1) ∧ (cell.2 - 1 ≤ p.2 ≤ cell.2 + 1).
Proof.
  unfold around, range. rewrite list_elem_of_bind. split.
  - intros (i & (j & ->%list_elem_of_singleton & Hj%elem_of_seqZ)
            %list_elem_of_bind & Hi%elem_of_seqZ). simpl. lia.
  - intros [H1 H2]. exists p.1. split; [|apply elem_of_seqZ; lia].
    apply list_elem_of_bind. exists p.2.
    split; [destruct p; by apply list_elem_of_singleton|].
    apply elem_of_seqZ. lia.
Qed.

Lemma elem_of_setall st p :
  p ∈ setall st ↔ (0 ≤ p.1 < width st) ∧ (0 ≤ p.2 < height st).
Proof.
  unfold setall, range. rewrite elem_of_list_to_set, list_elem_of_bind. split.
  - intros (i & (j & ->%list_elem_of_singleton & Hj%elem_of_seqZ)
            %list_elem_of_bind & Hi%elem_of_seqZ). simpl. lia.
  - intros [H1 H2]. exists p.1. split; [|apply elem_of_seqZ; lia].
    apply list_elem_of_bind. exists p.2.
    split; [destruct p; by apply list_elem_of_singleton|].
    apply elem_of_seqZ. lia.
Qed.

(** X1.  [make_safe_move] returns a cell that is known safe and has not
    been played; it returns [None] only when every known safe cell has been
    played. *)
Theorem safe_move_spec (st : AI) :
  match (make_safe_move st).1 with
  | Some p => p ∈ safes st ∧ p ∉ moves_made st
  | None => safes st ⊆ moves_made st
  end.
Proof.
  unfold make_safe_move. cbn [fst].
  destruct (list_find _ _) as [[i p]|] eqn:Hfind; cbn [fmap option_fmap option_map snd].
  - apply list_find_Some in Hfind as (Hi & Hp & _). split; [|done].
    apply elem_of_elements. by eapply list_elem_of_lookup_2.
  - apply list_find_None in Hfind. rewrite Forall_forall in Hfind.
    intros p Hp. apply dec_stable. apply Hfind. by apply elem_of_elements.
Qed.

(** X2.  [make_random_move] returns a cell [(i, j)] with [i] in
    [range(width)] and [j] in [range(height)] that is not played, not known
    safe and not a known mine; it returns [None] only when there is no such
    cell. *)
Theorem random_move_spec (st : AI) (r : nat) :
  match (make_random_move st r).1 with
  | Some p =>
      ((0 ≤ p.1 < width st) ∧ (0 ≤ p.2 < height st))
      ∧ (p ∉ moves_made st) ∧ (p ∉ safes st) ∧ (p ∉ mines st)
  | None =>
      ∀ p, (0 ≤ p.1 < width st) → (0 ≤ p.2 < height st) →
           p ∈ moves_made st ∨ p ∈ safes st ∨ p ∈ mines st
  end.
Proof.
  destruct (make_random_move st r).1 as [p|] eqn:Hmove.
  - apply make_random_move_Some in Hmove. unfold candidates in Hmove.
    rewrite !elem_of_difference, elem_of_setall in Hmove. tauto.
  - apply make_random_move_None in Hmove. intros p H1 H2.
    assert (p ∈ setall st) as Hp by (by apply elem_of_setall).
    unfold candidates in Hmove.
    destruct (decide (p ∈ moves_made st)); [by left|].
    destruct (decide (p ∈ safes st)); [by auto|].
    destruct (decide (p ∈ mines st)); [by auto|].
    exfalso. set_solver.
Qed.

(** X3.  On a square board [make_random_move] returns a cell of the board
    that is not played, not known safe and not a known mine, and it returns
    [None] exactly when every cell of the board is one of these. *)
Theorem random_move_on_square_board (st : AI) (r : nat) :
  height st = width st →
  match (make_random_move st r).1 with
  | Some p => in_bounds st p = true ∧ p ∈ spec_unexplored st
  | None => spec_unexplored st = ∅
  end.
Proof.
  intros Hsq. pose proof (candidates_square st Hsq) as Heq.
  destruct (make_random_move st r).1 as [p|] eqn:Hmove.
  - apply make_random_move_Some in Hmove. split; [|by rewrite <-Heq].
    unfold candidates in Hmove.
    rewrite !elem_of_difference, elem_of_setall in Hmove.
    unfold in_bounds. rewrite Hsq.
    rewrite andb_true_iff, !bool_decide_eq_true. lia.
  - apply make_random_move_None in Hmove. by rewrite <-Heq.
Qed.

Lemma random_move_on_square_board_witness :
  match (make_random_move (init 2 2) 3).1 with
  | Some p => in_bounds (init 2 2) p = true ∧ p ∈ spec_unexplored (init 2 2)
  | None => spec_unexplored (init 2 2) = ∅
  end.
Proof. apply (random_move_on_square_board (init 2 2) 3). reflexivity. Defined.

(** ** Minesweeper.nearby_mines *)

Lemma nearby_loop_count g cell l m :
  foldl (Game.nearby_step g cell) m l
  = m + Z.of_nat (length (filter
          (λ p, p ≠ cell ∧ (0 ≤ p.1 < Game.height g)
                ∧ (0 ≤ p.2 < Game.width g) ∧ p ∈ Game.mines g) l)).
Proof.
  revert m. induction l as [|p l IH]; intros m; simpl; [lia|].
  rewrite IH. rewrite filter_cons. unfold Game.nearby_step.
  unfold Game.in_bounds, Game.board.
  replace (p.1, p.2) with p by (by destruct p).
  destruct (decide (p = cell)) as [->|Hne].
  { rewrite decide_False by tauto. lia. }
  destruct (decide (0 ≤ p.1 < Game.height g)) as [H1|H1].
  2:{ rewrite (bool_decide_eq_false_2 _ H1). simpl.
      rewrite decide_False by tauto. lia. }
  destruct (decide (0 ≤ p.2 < Game.width g)) as [H2|H2].
  2:{ rewrite (bool_decide_eq_false_2 _ H2), andb_false_r.
      rewrite decide_False by tauto. lia. }
  rewrite (bool_decide_eq_true_2 _ H1), (bool_decide_eq_true_2 _ H2). simpl.
  destruct (decide (p ∈ Game.mines g)) as [HM|HM].
  - rewrite (bool_decide_eq_true_2 _ HM).
    rewrite decide_True by done. simpl. lia.
  - rewrite (bool_decide_eq_false_2 _ HM).
    rewrite decide_False by tauto. lia.
Qed.

(** X4.  [nearby_mines(cell)] is the number of mines among the cells of the
    board that are within one row and one column of [cell], [cell] itself
    left out; it is at most 8. *)
Theorem nearby_mines_count (g : Game.t) (cell : Cell) :
  Game.nearby_mines g cell
  = len (filter (adjacent_on_board (Game.height g) (Game.width g) cell)
           (Game.mines g))
  ∧ 0 ≤ Game.nearby_mines g cell ≤ 8.
Proof.
  unfold Game.nearby_mines. rewrite nearby_loop_count.
  set (Q := λ p : Cell, _ ∧ _ ∧ _ ∧ _).
  split.
  - unfold len. rewrite Z.add_0_l. f_equal.
    rewrite <-(size_list_to_set (C := gset Cell))
      by apply NoDup_filter, around_NoDup.
    f_equal. apply leibniz_equiv. intros p.
    rewrite elem_of_list_to_set, list_elem_of_filter, elem_of_filter.
    rewrite elem_of_around. unfold Q, adjacent_on_board. tauto.
  - assert (length (filter Q (around cell)) < length (around cell))%nat
      as Hlt.
    { apply (length_filter_lt _ _ cell).
      - apply elem_of_around. lia.
      - unfold Q. tauto. }
    rewrite around_eq in Hlt at 2. simpl in Hlt. lia.
Qed.

(** ** Sentence.known_mines and Sentence.known_safes *)

(** X5.  For a sentence that is true of a mine layout, [known_mines] and
    [known_safes] either both return nothing, and then the count is strictly
    between 0 and the number of cells, or they return exactly the mines and
    exactly the mine-free cells of the sentence. *)
Theorem known_cells_exact (M : gset Cell) (s : Sentence) :
  holds M s →
  (known_mines s = None ∧ known_safes s = None
   ∧ 0 < count s < len (cells s))
  ∨ (known_mines s = Some (cells s ∩ M)
     ∧ known_safes s = Some (cells s ∖ M)).
Proof.
  intros Hs. pose proof (holds_bounds M s Hs) as Hb.
  unfold known_mines, known_safes.
  destruct (decide (count s = 0)) as [H0|H0].
  { right. unfold holds in Hs. rewrite H0 in Hs. symmetry in Hs.
    apply len_empty_iff in Hs. rewrite Hs. split; f_equal. set_solver. }
  destruct (decide (count s = len (cells s))) as [Hfull|Hfull].
  { right. unfold holds, len in Hs. rewrite Hfull in Hs.
    assert (cells s ∩ M ≡ cells s) as Heq.
    { apply set_subseteq_size_equiv; [set_solver|unfold len in *; lia]. }
    split; f_equal; set_solver. }
  left. split_and!; [done..|lia|lia].
Qed.

Lemma known_cells_exact_witness :
  let s := mkSentence {[(0, 0); (0, 1)]} 2 in
  let M : gset Cell := {[(0, 0); (0, 1); (5, 5)]} in
  (known_mines s = None ∧ known_safes s = None
   ∧ 0 < count s < len (cells s))
  ∨ (known_mines s = Some (cells s ∩ M)
     ∧ known_safes s = Some (cells s ∖ M)).
Proof.
  intros s M. apply (known_cells_exact M s). vm_compute. reflexivity.
Defined.

(** ** How the marking methods compose *)

Lemma sentence_eq (s1 s2 : Sentence) :
  cells s1 = cells s2 → count s1 = count s2 → s1 = s2.
Proof. destruct s1, s2. simpl. by intros -> ->. Qed.

Lemma count_mark_mine s c :
  count (mark_mine c s) = count s - (if decide (c ∈ cells s) then 1 else 0).
Proof. unfold mark_mine. case_decide; simpl; lia. Qed.

Lemma mark_safe_comm s c1 c2 :
  mark_safe c1 (mark_safe c2 s) = mark_safe c2 (mark_safe c1 s).
Proof.
  apply sentence_eq.
  - rewrite !cells_mark_safe. set_solver.
  - by rewrite !count_mark_safe.
Qed.

Lemma mark_mine_comm s c1 c2 :
  mark_mine c1 (mark_mine c2 s) = mark_mine c2 (mark_mine c1 s).
Proof.
  apply sentence_eq.
  - rewrite !cells_mark_mine. set_solver.
  - rewrite !count_mark_mine, !cells_mark_mine.
    destruct (decide (c1 = c2)) as [->|Hne]; [done|].
    repeat case_decide; first [lia | exfalso; set_solver].
Qed.

Lemma mark_safe_mine_comm s c1 c2 :
  c1 ≠ c2 → mark_safe c1 (mark_mine c2 s) = mark_mine c2 (mark_safe c1 s).
Proof.
  intros Hne. apply sentence_eq.
  - rewrite !cells_mark_safe, !cells_mark_mine, cells_mark_safe. set_solver.
  - rewrite count_mark_safe, !count_mark_mine, count_mark_safe,
      cells_mark_safe.
    repeat case_decide; first [lia | exfalso; set_solver].
Qed.

(** X6.  Marking a cell twice is marking it once, and markings of a
    sentence can be done in any order: two [mark_safe], two [mark_mine], and
    a [mark_safe] and a [mark_mine] of different cells. *)
Theorem sentence_marks_compose (s : Sentence) (c1 c2 : Cell) :
  mark_safe c1 (mark_safe c1 s) = mark_safe c1 s
  ∧ mark_mine c1 (mark_mine c1 s) = mark_mine c1 s
  ∧ mark_safe c1 (mark_safe c2 s) = mark_safe c2 (mark_safe c1 s)
  ∧ mark_mine c1 (mark_mine c2 s) = mark_mine c2 (mark_mine c1 s)
  ∧ (c1 ≠ c2 → mark_safe c1 (mark_mine c2 s) = mark_mine c2 (mark_safe c1 s)).
Proof.
  split_and!.
  - apply mark_safe_notin. rewrite cells_mark_safe. set_solver.
  - apply mark_mine_notin. rewrite cells_mark_mine. set_solver.
  - apply mark_safe_comm.
  - apply mark_mine_comm.
  - apply mark_safe_mine_comm.
Qed.

Lemma sentence_marks_compose_witness :
  let s := mkSentence {[(0, 0); (0, 1); (0, 2)]} 1 in
  mark_safe (0, 0) (mark_mine (0, 1) s) = mark_mine (0, 1) (mark_safe (0, 0) s).
Proof.
  intros s.
  apply (proj2 (proj2 (proj2 (proj2
           (sentence_marks_compose s (0, 0) (0, 1)))))).
  discriminate.
Defined.

(** ** The marking loops of the engine *)

(** X7.  Marking a list of cells safe, one [mark_safe] call after the
    other, adds the cells to [safes] and takes them out of every sentence,
    counts unchanged; marking them as mines adds them to [mines], takes them
    out of every sentence and lowers each count by the number of cells
    taken out.  The result depends on the set of cells only, not on the
    order of the calls or on repetitions. *)
Theorem marking_loops (st : AI) (l : list Cell) :
  foldl ai_mark_safe st l
  = {| height := height st; width := width st; moves_made := moves_made st;
       mines := mines st; safes := list_to_set l ∪ safes st;
       knowledge :=
         (λ s, mkSentence (cells s ∖ list_to_set l) (count s))
           <$> knowledge st |}
  ∧ foldl ai_mark_mine st l
    = {| height := height st; width := width st;
         moves_made := moves_made st;
         mines := list_to_set l ∪ mines st; safes := safes st;
         knowledge :=
           (λ s, mkSentence (cells s ∖ list_to_set l)
                   (count s - len (cells s ∩ list_to_set l)))
             <$> knowledge st |}.
Proof.
  split.
  - revert st. induction l as [|c l IH]; intros st.
    + destruct st as [h w mv mn sf kb]. simpl. f_equal; [set_solver|].
      rewrite <-(list_fmap_id kb) at 1. apply list_fmap_ext.
      intros _ s _. apply sentence_eq; simpl; [set_solver|done].
    + simpl. rewrite IH. simpl. f_equal; [set_solver|].
      rewrite <-list_fmap_compose. apply list_fmap_ext. intros _ s _.
      simpl. apply sentence_eq; simpl.
      * rewrite cells_mark_safe. set_solver.
      * by rewrite count_mark_safe.
  - revert st. induction l as [|c l IH]; intros st.
    + destruct st as [h w mv mn sf kb]. simpl. f_equal; [set_solver|].
      rewrite <-(list_fmap_id kb) at 1. apply list_fmap_ext.
      intros _ s _. apply sentence_eq; simpl; [set_solver|].
      replace (cells s ∩ ∅) with (∅ : gset Cell) by set_solver.
      unfold len. rewrite size_empty. lia.
    + simpl. rewrite IH. simpl. f_equal; [set_solver|].
      rewrite <-list_fmap_compose. apply list_fmap_ext. intros _ s _.
      simpl. apply sentence_eq; simpl.
      * rewrite cells_mark_mine. set_solver.
      * rewrite count_mark_mine, cells_mark_mine.
        destruct (decide (c ∈ cells s)) as [Hc|Hc].
        -- replace (cells s ∩ ({[c]} ∪ list_to_set l))
             with ({[c]} ∪ (cells s ∖ {[c]}) ∩ list_to_set l)
             by (apply set_eq; intros p; destruct (decide (p = c));
                 set_solver).
           unfold len.
           rewrite (size_union {[c]} ((cells s ∖ {[c]}) ∩ list_to_set l))
             by set_solver.
           rewrite size_singleton. lia.
        -- replace (cells s ∖ {[c]}) with (cells s) by set_solver.
           replace (cells s ∩ ({[c]} ∪ list_to_set l))
             with (cells s ∩ list_to_set l) by set_solver.
           lia.
Qed.

(** ** The new sentence of add_knowledge *)

Lemma in_bounds_true st p :
  in_bounds st p = true ↔ (0 ≤ p.1 < height st) ∧ (0 ≤ p.2 < width st).
Proof.
  unfold in_bounds. by rewrite andb_true_iff, !bool_decide_eq_true.
Qed.

Lemma neighbour_step_cells st cell acc q p :
  p ∈ (neighbour_step st cell acc q).1 ↔
  p ∈ acc.1 ∨
  (p = q ∧ q ≠ cell ∧ in_bounds st q = true
   ∧ (q ∉ mines st) ∧ (q ∉ safes st)).
Proof.
  unfold neighbour_step.
  destruct (decide (q = cell)) as [Hq|Hq].
  { split; [by left|]. intros [?|(_ & ? & _)]; done. }
  destruct (in_bounds st q) eqn:Hb.
  2:{ split; [by left|]. intros [?|(_ & _ & ? & _)]; done. }
  cbn [fst].
  destruct (decide (q ∉ mines st)) as [Hm|Hm].
  2:{ split; [by left|]. intros [?|(_ & _ & _ & ? & _)]; done. }
  destruct (decide (q ∉ safes st)) as [Hs|Hs].
  2:{ split; [by left|]. intros [?|(_ & _ & _ & _ & ?)]; done. }
  rewrite elem_of_union, elem_of_singleton. split.
  - intros [->|?]; [right|by left]. done.
  - intros [?|(-> & _)]; [by right|by left].
Qed.

Lemma neighbour_step_count st cell acc q :
  (neighbour_step st cell acc q).2
  = acc.2 - (if decide (q ≠ cell ∧ in_bounds st q = true ∧ q ∈ mines st)
             then 1 else 0).
Proof.
  unfold neighbour_step.
  destruct (decide (q = cell)) as [Hq|Hq].
  { rewrite decide_False by tauto. lia. }
  destruct (in_bounds st q) eqn:Hb.
  2:{ rewrite decide_False by (intros (_ & ? & _); done). lia. }
  cbn [snd]. destruct (decide (q ∈ mines st)) as [Hm|Hm].
  - by rewrite decide_True.
  - rewrite decide_False by tauto. lia.
Qed.

Lemma neighbour_loop_spec st cell l acc :
  (∀ p, p ∈ (foldl (neighbour_step st cell) acc l).1 ↔
        p ∈ acc.1 ∨
        (p ∈ l ∧ p ≠ cell ∧ in_bounds st p = true
         ∧ (p ∉ mines st) ∧ (p ∉ safes st)))
  ∧ (foldl (neighbour_step st cell) acc l).2
    = acc.2 - Z.of_nat (length (filter
        (λ p, p ≠ cell ∧ in_bounds st p = true ∧ p ∈ mines st) l)).
Proof.
  revert acc. induction l as [|q l IH]; intros acc.
  { simpl. split; [|lia]. intros p. rewrite elem_of_nil. tauto. }
  cbn [foldl]. destruct (IH (neighbour_step st cell acc q)) as [IH1 IH2].
  split.
  - intros p. rewrite IH1, neighbour_step_cells, elem_of_cons. split.
    + intros [[?|(-> & ?)]|(? & ?)]; [by left|right..].
      * split; [by left|done].
      * split; [by right|done].
    + intros [?|([->|?] & ?)]; [by left; left| |].
      * left; right. done.
      * right. done.
  - rewrite IH2, neighbour_step_count, filter_cons.
    destruct (decide _); cbn [length]; lia.
Qed.

(** X8.  The cell set of the new sentence of [add_knowledge] is exactly the
    set of the cells of the board next to [cell] that are neither known
    mines nor known safe, and its count is the reported count minus the
    number of known mines next to [cell]. *)
Theorem new_sentence_spec (st : AI) (cell : Cell) (n : Z) :
  (∀ p, p ∈ (neighbours st cell n).1 ↔
        adjacent_on_board (height st) (width st) cell p
        ∧ (p ∉ mines st) ∧ (p ∉ safes st))
  ∧ (neighbours st cell n).2
    = n - len (filter (adjacent_on_board (height st) (width st) cell)
                 (mines st)).
Proof.
  unfold neighbours.
  destruct (neighbour_loop_spec st cell (around cell) (∅, n)) as [H1 H2].
  split.
  - intros p. rewrite H1. cbn [fst].
    rewrite elem_of_around, in_bounds_true. unfold adjacent_on_board.
    split; [|tauto]. intros [Hp|Hp]; [set_solver|tauto].
  - rewrite H2. cbn [snd]. f_equal. unfold len. f_equal.
    rewrite <-(size_list_to_set (C := gset Cell))
      by apply NoDup_filter, around_NoDup.
    f_equal. apply leibniz_equiv. intros p.
    rewrite elem_of_list_to_set, list_elem_of_filter, elem_of_filter.
    rewrite elem_of_around, in_bounds_true. unfold adjacent_on_board. tauto.
Qed.

(** ** What a call of add_knowledge changes *)

(** X9.  A call of [add_knowledge] leaves the dimensions as they are, adds
    exactly the reported cell to [moves_made], puts it in [safes], and
    removes nothing from [safes] or [mines]. *)
Theorem add_knowledge_grows (st : AI) (cell : Cell) (n : Z) (st' : AI) :
  add_knowledge st cell n = Some st' →
  height st' = height st ∧ width st' = width st
  ∧ moves_made st' = {[cell]} ∪ moves_made st
  ∧ {[cell]} ∪ safes st ⊆ safes st'
  ∧ mines st ⊆ mines st'.
Proof.
  intros [[_ ->]|(_ & kb' & _ & ->)]%add_knowledge_inv.
  - by split_and!.
  - pose proof (extract_extends (with_knowledge (probed st cell) kb'))
      as (Hh & Hw & Hmoves & Hsafes & Hmines & _).
    by split_and!.
Qed.

Lemma add_knowledge_grows_witness :
  let st' := default (init 0 0) (add_knowledge (init 2 2) (0, 0) 1) in
  height st' = 2 ∧ width st' = 2
  ∧ moves_made st' = {[(0, 0)]} ∪ ∅
  ∧ {[(0, 0)]} ∪ ∅ ⊆ safes st'
  ∧ ∅ ⊆ mines st'.
Proof.
  intros st'. apply (add_knowledge_grows (init 2 2) (0, 0) 1 st').
  by_compute.
Defined.

(** ** Invariants of the engine *)

Lemma reduced_mark_safe st c : reduced st → reduced (ai_mark_safe st c).
Proof.
  intros Hst s. simpl. intros (s0 & -> & Hs0)%list_elem_of_fmap.
  destruct (Hst s0 Hs0) as [H1 H2]. rewrite cells_mark_safe. set_solver.
Qed.

Lemma reduced_mark_mine st c : reduced st → reduced (ai_mark_mine st c).
Proof.
  intros Hst s. simpl. intros (s0 & -> & Hs0)%list_elem_of_fmap.
  destruct (Hst s0 Hs0) as [H1 H2]. rewrite cells_mark_mine. set_solver.
Qed.

Lemma reduced_before_extract st cell n kb' :
  reduced st →
  let st2 := probed st cell in
  let cs := (neighbours st2 cell n).1 in
  let k := (neighbours st2 cell n).2 in
  let kb3 := remove_empty (knowledge st2) in
  subset_loop cs k (kb3 ++ [mkSentence cs k])
    (seq 0 (length (kb3 ++ [mkSentence cs k]))) = Some kb' →
  reduced (with_knowledge st2 kb').
Proof.
  intros Hst st2 cs k kb3 Hloop.
  assert (reduced st2) as H2.
  { apply reduced_mark_safe. intros s Hs. apply (Hst s Hs). }
  assert (Forall (λ s, cells s ## safes st2 ∧ cells s ## mines st2) kb3)
    as Hkb3.
  { apply Forall_forall. intros s Hs. apply H2.
    eapply elem_of_sublist; [done|]. apply remove_empty_from_sublist. }
  intros s Hs. cbn [knowledge with_knowledge] in Hs.
  change (cells s ## safes st2 ∧ cells s ## mines st2).
  revert s Hs.
  apply (proj1 (Forall_forall
           (λ s, cells s ## safes st2 ∧ cells s ## mines st2) kb')).
  eapply (subset_loop_Forall
            (λ s, cells s ## safes st2 ∧ cells s ## mines st2));
    [| | |done].
  - intros s _ _. cbn [cells].
    split; intros p [Hp _]%elem_of_difference;
      apply neighbours_cells in Hp as (_ & _ & _ & ? & ?); done.
  - intros s [? ?] _. cbn [cells]. set_solver.
  - apply Forall_app. split; [done|]. apply Forall_singleton.
    cbn [cells].
    split; intros p Hp;
      apply neighbours_cells in Hp as (_ & _ & _ & ? & ?); done.
Qed.

Lemma reduced_add_knowledge st cell n st' :
  reduced st → add_knowledge st cell n = Some st' → reduced st'.
Proof.
  intros Hst Hadd.
  apply add_knowledge_inv in Hadd. cbv zeta in Hadd.
  destruct Hadd as [[_ ->]|(_ & kb' & Hloop & ->)].
  { assert (reduced (probed st cell)) as H2.
    { apply reduced_mark_safe. intros s Hs. apply (Hst s Hs). }
    intros s Hs. apply H2.
    eapply elem_of_sublist; [done|]. apply remove_empty_from_sublist. }
  apply extract_ind.
  - intros st' c s Hst' _ _ _. by apply reduced_mark_safe.
  - intros st' c s Hst' _ _ _. by apply reduced_mark_mine.
  - by apply (reduced_before_extract st cell n kb').
Qed.

Lemma reachable_invariant h w st :
  reachable h w st →
  height st = h ∧ width st = w ∧ moves_made st ⊆ safes st ∧ reduced st.
Proof.
  induction 1 as [|st cell n st' _ IH Hadd| |]; [|..|done|done].
  - split_and!; [done..|]. intros s Hs. by apply elem_of_nil in Hs.
  - destruct IH as (Hh & Hw & Hmoves & Hred).
    pose proof (reduced_add_knowledge st cell n st' Hred Hadd) as Hred'.
    apply add_knowledge_inv in Hadd. cbv zeta in Hadd.
    destruct Hadd as [[_ ->]|(_ & kb' & _ & ->)].
    + split_and!; [done..| |done]. simpl. set_solver.
    + pose proof (extract_extends (with_knowledge (probed st cell) kb'))
        as (Hh' & Hw' & Hmoves' & Hsafes' & _).
      split_and!; [by rewrite Hh'|by rewrite Hw'| |done].
      rewrite Hmoves'. etrans; [|apply Hsafes']. simpl. set_solver.
Qed.

(** ** Known safe cells and known mines *)

(** C4 as it is written fails: nothing stops a call for a cell that is a
    known mine.  On a 1 x 2 board the calls [((0,0), 1)] and [((0,1), 0)]
    leave [(0,1)] both in [mines] and in [safes]. *)
Lemma safes_mines_overlap :
  ∃ st, replay 1 2 [((0, 0), 1); ((0, 1), 0)] = Some st
        ∧ reachable 1 2 st ∧ (0, 1) ∈ safes st ∧ (0, 1) ∈ mines st.
Proof.
  set (st := default (init 0 0) (replay 1 2 [((0, 0), 1); ((0, 1), 0)])).
  assert (replay 1 2 [((0, 0), 1); ((0, 1), 0)] = Some st) as Hst
    by by_compute.
  exists st. split; [done|]. split; [by eapply replay_reachable|].
  by_compute.
Qed.

Lemma add_knowledge_keeps st cell n st' :
  add_knowledge st cell n = Some st' →
  cell ∈ safes st' ∧ safes st ⊆ safes st' ∧ mines st ⊆ mines st'.
Proof.
  intros [[_ ->]|(_ & kb' & _ & ->)]%add_knowledge_inv.
  - simpl. set_solver.
  - pose proof (extract_extends (with_knowledge (probed st cell) kb'))
      as (_ & _ & _ & Hs & Hm & _).
    simpl in Hs, Hm. set_solver.
Qed.

Lemma disjoint_add_knowledge st cell n st' :
  reduced st → safes st ## mines st → cell ∉ mines st →
  add_knowledge st cell n = Some st' → safes st' ## mines st'.
Proof.
  intros Hred Hdis Hcell Hadd.
  apply add_knowledge_inv in Hadd. cbv zeta in Hadd.
  destruct Hadd as [[_ ->]|(_ & kb' & Hloop & ->)].
  { simpl. set_solver. }
  apply (extract_ind (λ st, reduced st ∧ safes st ## mines st)).
  - intros st0 c s [Hr Hd] Hs _ Hc. split; [by apply reduced_mark_safe|].
    destruct (Hr s Hs) as [_ Hm]. simpl. set_solver.
  - intros st0 c s [Hr Hd] Hs _ Hc. split; [by apply reduced_mark_mine|].
    destruct (Hr s Hs) as [Hsf _]. simpl. set_solver.
  - split; [by apply (reduced_before_extract st cell n kb')|].
    simpl. set_solver.
Qed.

Lemma guarded_invariant h w st :
  guarded h w st → reduced st ∧ safes st ## mines st.
Proof.
  induction 1 as [|st cell n st' _ [Hr Hd] Hcell Hadd| |]; [|..|done|done].
  - split; [|set_solver]. intros s Hs. by apply elem_of_nil in Hs.
  - split; [by eapply reduced_add_knowledge|].
    by eapply disjoint_add_knowledge.
Qed.

(** A truthful driver never reports a known mine: the states it produces
    are among the guarded ones. *)
Lemma driven_guarded g st :
  driven g st → guarded (Game.height g) (Game.width g) st.
Proof.
  induction 1 as [|st cell st' Hst IH _ Hmine Hadd|st _ IH|st r _ IH].
  - apply guarded_init.
  - apply (guarded_add _ _ st cell (Game.nearby_mines g cell)); [done| |done].
    apply driven_sound in Hst as (_ & _ & _ & _ & Hsub).
    intros Hin. apply Hsub in Hin.
    unfold Game.is_mine, Game.board in Hmine.
    apply bool_decide_eq_false in Hmine. apply Hmine. by destruct cell.
  - by apply guarded_safe_move.
  - by apply guarded_random_move.
Qed.

(** C4, amended.  In every state reached from a fresh engine by calls of
    the three public methods in which no observation is reported for a cell
    that is a known mine at the time of the call (any count, any cell
    otherwise, on the board or not), [safes] and [mines] are disjoint.  The
    condition cannot be dropped for a single call: from such a state, a
    call of [add_knowledge] leaves the two sets disjoint exactly when its
    cell is not a known mine. *)
Theorem safes_mines_disjoint (h w : Z) (st : AI) :
  guarded h w st →
  safes st ## mines st
  ∧ ∀ cell n st', add_knowledge st cell n = Some st' →
                  (safes st' ## mines st' ↔ cell ∉ mines st).
Proof.
  intros [Hred Hdis]%guarded_invariant. split; [done|].
  intros cell n st' Hadd. split.
  - intros Hdis' Hcell.
    destruct (add_knowledge_keeps st cell n st' Hadd) as (Hc & _ & Hm).
    set_solver.
  - intros Hcell. by eapply disjoint_add_knowledge.
Qed.

Lemma safes_mines_disjoint_witness :
  let st := default (init 0 0) (replay 1 2 [((0, 0), 1)]) in
  safes st ## mines st
  ∧ ∀ cell n st', add_knowledge st cell n = Some st' →
                  (safes st' ## mines st' ↔ cell ∉ mines st).
Proof.
  intros st. apply (safes_mines_disjoint 1 2 st).
  apply (guarded_add 1 2 (init 1 2) (0, 0) 1 st);
    [apply guarded_init|by_compute|by_compute].
Defined.

(** X10.  In every state the public methods can reach, whatever their
    arguments, no sentence of the knowledge base mentions a cell that is
    known safe or a known mine. *)
Theorem knowledge_reduced (h w : Z) (st : AI) :
  reachable h w st →
  ∀ s, s ∈ knowledge st → cells s ## safes st ∧ cells s ## mines st.
Proof. intros Hst. by apply (reachable_invariant h w st). Qed.

Lemma knowledge_reduced_witness :
  let st := default (init 0 0) (replay 3 3 [((0, 0), 1); ((2, 2), 3)]) in
  let s := mkSentence {[(0, 1); (1, 0)]} 0 in
  cells s ## safes st ∧ cells s ## mines st.
Proof.
  intros st s. apply (knowledge_reduced 3 3 st).
  - apply (replay_reachable 3 3 [((0, 0), 1); ((2, 2), 3)]). by_compute.
  - by_compute.
Defined.

(** X11.  In every state the public methods can reach from
    [MinesweeperAI(h, w)], the dimensions are [h] and [w] and every cell
    that has been played is known safe. *)
Theorem played_cells_safe (h w : Z) (st : AI) :
  reachable h w st →
  height st = h ∧ width st = w ∧ moves_made st ⊆ safes st.
Proof.
  intros (? & ? & ? & _)%reachable_invariant. done.
Qed.

Lemma played_cells_safe_witness :
  let st := default (init 0 0) (replay 3 3 [((0, 0), 1); ((2, 2), 3)]) in
  height st = 3 ∧ width st = 3 ∧ moves_made st ⊆ safes st.
Proof.
  intros st. apply (played_cells_safe 3 3 st).
  apply (replay_reachable 3 3 [((0, 0), 1); ((2, 2), 3)]). by_compute.
Defined.

(** ** What the engine knows when the driver is truthful *)

(** X12.  When the observations come from a driver that plays a board, every
    sentence of the knowledge base is true of the board (its count is the
    number of its cells that are mines, so it lies between 0 and the number
    of cells), no known safe cell is a mine and every known mine is a
    mine. *)
Theorem driver_knowledge_sound (g : Game.t) (st : AI) :
  driven g st →
  (∀ s, s ∈ knowledge st →
        count s = len (cells s ∩ Game.mines g)
        ∧ 0 ≤ count s ≤ len (cells s))
  ∧ (∀ p, p ∈ safes st → Game.is_mine g p = false)
  ∧ (∀ p, p ∈ mines st → Game.is_mine g p = true).
Proof.
  intros (_ & _ & Hkb & Hsafe & Hmine)%driven_sound.
  rewrite Forall_forall in Hkb. split_and!.
  - intros s Hs. split; [by apply Hkb|].
    apply (holds_bounds (Game.mines g)). by apply Hkb.
  - intros p Hp. unfold Game.is_mine, Game.board.
    apply bool_decide_eq_false_2. destruct p. set_solver.
  - intros p Hp. unfold Game.is_mine, Game.board.
    apply bool_decide_eq_true_2. destruct p. set_solver.
Qed.

Lemma driver_knowledge_sound_witness :
  let g := Game.Build 3 3 {[(0, 1); (2, 2)]} in
  let st := default (init 0 0) (play g [(0, 0); (2, 0)]) in
  (∀ s, s ∈ knowledge st →
        count s = len (cells s ∩ Game.mines g)
        ∧ 0 ≤ count s ≤ len (cells s))
  ∧ (∀ p, p ∈ safes st → Game.is_mine g p = false)
  ∧ (∀ p, p ∈ mines st → Game.is_mine g p = true).
Proof.
  intros g st. apply (driver_knowledge_sound g st).
  apply (play_driven g [(0, 0); (2, 0)] st); by_compute.
Defined.

Lemma on_board_mark_safe st c :
  on_board st → in_bounds st c = true → on_board (ai_mark_safe st c).
Proof.
  intros [Hkb Hsm] Hc. split; [by apply kb_on_board_mark_safe|].
  intros p. simpl. rewrite elem_of_union, elem_of_singleton.
  intros [[->|?]|?]; [done|apply Hsm; by left|apply Hsm; by right].
Qed.

Lemma on_board_mark_mine st c :
  on_board st → in_bounds st c = true → on_board (ai_mark_mine st c).
Proof.
  intros [Hkb Hsm] Hc. split; [by apply kb_on_board_mark_mine|].
  intros p. simpl. rewrite elem_of_union, elem_of_singleton.
  intros [?|[->|?]]; [apply Hsm; by left|done|apply Hsm; by right].
Qed.

Lemma on_board_add_knowledge st cell n st' :
  on_board st → in_bounds st cell = true →
  add_knowledge st cell n = Some st' → on_board st'.
Proof.
  intros Hst Hcell Hadd.
  assert (on_board (probed st cell)) as H2.
  { apply on_board_mark_safe; [|done]. exact Hst. }
  apply add_knowledge_inv in Hadd. cbv zeta in Hadd.
  set (st2 := probed st cell) in *. destruct H2 as [Hkb2 Hsm2].
  assert (Forall (λ s, ∀ p, p ∈ cells s → in_bounds st2 p = true)
            (remove_empty (knowledge st2))) as Hkb3.
  { apply Forall_forall. intros s Hs p Hp. apply (Hkb2 s p); [|done].
    eapply elem_of_sublist; [done|]. apply remove_empty_from_sublist. }
  destruct Hadd as [[_ ->]|(_ & kb' & Hloop & ->)].
  { split; [|done]. intros s p Hs Hp. rewrite Forall_forall in Hkb3.
    by apply (Hkb3 s). }
  apply extract_ind.
  - intros st' c s Hst' Hs _ Hc. apply on_board_mark_safe; [done|].
    by apply (proj1 Hst' s).
  - intros st' c s Hst' Hs _ Hc. apply on_board_mark_mine; [done|].
    by apply (proj1 Hst' s).
  - split; [|done]. intros s p Hs. cbn [knowledge with_knowledge] in Hs.
    change (p ∈ cells s → in_bounds st2 p = true). revert s Hs p.
    apply (proj1 (Forall_forall
             (λ s, ∀ p, p ∈ cells s → in_bounds st2 p = true) kb')).
    eapply (subset_loop_Forall
              (λ s, ∀ p, p ∈ cells s → in_bounds st2 p = true));
      [| | |done].
    + intros s _ _ p. cbn [cells]. intros [Hp _]%elem_of_difference.
      by apply neighbours_cells in Hp as (_ & _ & ? & _).
    + intros s Hs _ p. cbn [cells]. intros [Hp _]%elem_of_difference. auto.
    + apply Forall_app. split; [done|]. apply Forall_singleton.
      cbn [cells]. intros p Hp.
      by apply neighbours_cells in Hp as (_ & _ & ? & _).
Qed.

Lemma driven_on_board g st : driven g st → on_board st.
Proof.
  induction 1 as [|st cell st' Hst IH Hin _ Hadd| |]; [|..|done|done].
  - split; [intros s p Hs; by apply elem_of_nil in Hs|].
    intros p. simpl. set_solver.
  - apply (on_board_add_knowledge st cell (Game.nearby_mines g cell) st');
      [done| |done].
    apply driven_sound in Hst as (Hh & Hw & _).
    unfold in_bounds. rewrite Hh, Hw. exact Hin.
Qed.

(** X13.  When the observations come from a driver that plays a board, the
    cell [make_safe_move] returns is a cell of the board, is not a mine and
    has not been played. *)
Theorem safe_move_is_safe (g : Game.t) (st : AI) (p : Cell) :
  driven g st → (make_safe_move st).1 = Some p →
  Game.in_bounds g p.1 p.2 = true ∧ Game.is_mine g p = false
  ∧ p ∉ moves_made st.
Proof.
  intros Hst Hmove.
  assert (p ∈ safes st ∧ p ∉ moves_made st) as [Hsafe Hnew].
  { unfold make_safe_move in Hmove. cbn [fst] in Hmove.
    destruct (list_find _ _) as [[i q]|] eqn:Hfind; [|done].
    injection Hmove as ->.
    apply list_find_Some in Hfind as (Hi & Hp & _). split; [|done].
    apply elem_of_elements. by eapply list_elem_of_lookup_2. }
  pose proof (driven_on_board g st Hst) as [_ Hsm].
  apply driven_sound in Hst as (Hh & Hw & _ & Hdisj & _).
  split_and!; [| |done].
  - specialize (Hsm p (or_introl Hsafe)).
    unfold in_bounds in Hsm. by rewrite Hh, Hw in Hsm.
  - unfold Game.is_mine, Game.board. apply bool_decide_eq_false_2.
    destruct p. set_solver.
Qed.

Lemma safe_move_is_safe_witness :
  let g := Game.Build 1 3 {[(0, 2)]} in
  Game.in_bounds g 0 1 = true ∧ Game.is_mine g (0, 1) = false
  ∧ (0, 1) ∉ moves_made (default (init 0 0) (play g [(0, 0)])).
Proof.
  intros g.
  apply (safe_move_is_safe g (default (init 0 0) (play g [(0, 0)])) (0, 1)).
  - apply (play_driven g [(0, 0)]); by_compute.
  - by_compute.
Defined.

(** ** The full rule *)

(** X14.  When the knowledge base is true of a mine layout, every cell of
    every sentence whose count is the number of its cells when the
    extraction loop starts is in [mines] when the loop ends. *)
Theorem full_rule (g : Game.t) (st : AI) (s : Sentence) :
  sound g st → s ∈ knowledge st → count s = len (cells s) →
  cells s ⊆ mines (extract st).
Proof.
  intros Hst [i Hi]%list_elem_of_lookup_1 Hc.
  pose proof (lookup_lt_Some _ _ _ Hi) as Hlt.
  unfold extract.
  replace (length (knowledge st))
    with (i + S (length (knowledge st) - S i))%nat by lia.
  rewrite seq_app, foldl_app. simpl.
  set (J := λ st', sound g st' ∧ ∃ s', knowledge st' !! i = Some s'
                   ∧ count s' = len (cells s')
                   ∧ cells s ⊆ cells s' ∪ mines st').
  assert (J (foldl visit st (seq 0 i))) as (_ & s' & Hs' & Hc' & Hsub).
  { apply visits_ind.
    - intros st' c t (Hsound & s' & Hs' & Hc' & Hsub) Ht Hct Hin.
      assert (c ∉ Game.mines g) as HcM.
      { destruct Hsound as (_ & _ & Hkb & _).
        rewrite Forall_forall in Hkb. apply (holds_zero g t); auto. }
      split; [by apply sound_mark_safe|].
      exists s'. simpl. rewrite list_lookup_fmap, Hs'. simpl.
      split_and!; [|done..]. f_equal. apply mark_safe_notin.
      intros Hcs'. apply HcM. apply (holds_full g s' c); [|done..].
      destruct Hsound as (_ & _ & Hkb & _).
      rewrite Forall_forall in Hkb. apply Hkb.
      by eapply list_elem_of_lookup_2.
    - intros st' c t (Hsound & s' & Hs' & Hc' & Hsub) Ht Hct Hin.
      assert (c ∈ Game.mines g) as HcM.
      { destruct Hsound as (_ & _ & Hkb & _).
        rewrite Forall_forall in Hkb. apply (holds_full g t); auto. }
      split; [by apply sound_mark_mine|].
      exists (mark_mine c s'). simpl. rewrite list_lookup_fmap, Hs'. simpl.
      split_and!; [done| |].
      + rewrite count_mark_mine, cells_mark_mine.
        destruct (decide (c ∈ cells s')) as [Hcs'|Hcs'].
        * rewrite len_remove by done. lia.
        * replace (cells s' ∖ {[c]}) with (cells s') by set_solver. lia.
      + rewrite cells_mark_mine. intros p Hp.
        destruct (decide (p = c)); set_solver.
    - split; [done|]. exists s. split_and!; [done..|set_solver]. }
  set (sta := foldl visit st (seq 0 i)) in *.
  assert (cells s' ⊆ mines (visit sta i)) as Hvisit.
  { destruct (decide (count s' = 0)) as [H0|H0].
    - rewrite H0 in Hc'. symmetry in Hc'. apply len_empty_iff in Hc'.
      rewrite Hc'. set_solver.
    - by apply visit_full. }
  pose proof (visits_extends [i] sta) as (_ & _ & _ & _ & Hmono & _).
  pose proof (visits_extends (seq (S i) (length (knowledge st) - S i))
                (visit sta i)) as (_ & _ & _ & _ & Hmono' & _).
  simpl in Hmono. set_solver.
Qed.

Lemma full_rule_witness :
  let s := mkSentence {[(0, 0); (0, 1)]} 2 in
  let st := mkAI 1 3 ∅ ∅ ∅ [s] in
  cells s ⊆ mines (extract st).
Proof.
  intros s st.
  apply (full_rule (Game.Build 1 3 {[(0, 0); (0, 1)]}) st s).
  - split_and!; [reflexivity..| | |].
    + apply Forall_singleton. vm_compute. reflexivity.
    + by_compute.
    + by_compute.
  - apply list_elem_of_singleton. reflexivity.
  - vm_compute. reflexivity.
Defined.

(** ** When the extraction loop changes nothing *)

Lemma visit_not_decisive st i :
  (∀ s, knowledge st !! i = Some s → decisive s = false) → visit st i = st.
Proof.
  intros Hi. unfold visit. destruct (knowledge st !! i) as [s|] eqn:Hs; [|done].
  specialize (Hi s eq_refl). unfold decisive in Hi.
  apply orb_false_iff in Hi as [-> Hm]. rewrite Hs. by rewrite Hm.
Qed.

Lemma total_cells_mark_safe st c :
  (total_cells (ai_mark_safe st c) ≤ total_cells st)%nat
  ∧ (∀ s, s ∈ knowledge st → c ∈ cells s →
          (total_cells (ai_mark_safe st c) < total_cells st)%nat).
Proof.
  unfold total_cells. simpl. induction (knowledge st) as [|t kb [IH1 IH2]].
  { split; [done|]. intros s Hs. by apply elem_of_nil in Hs. }
  cbn [fmap list_fmap sum_list sum_list_with compose].
  assert (size (cells (mark_safe c t)) ≤ size (cells t))%nat as Hle.
  { apply subseteq_size. rewrite cells_mark_safe. set_solver. }
  split; [simpl in *; lia|].
  intros s [->|Hs]%elem_of_cons Hc.
  - rewrite mark_safe_in by done. cbn [cells].
    pose proof (len_remove (cells t) c Hc) as Hlen. unfold len in Hlen.
    simpl in *. lia.
  - specialize (IH2 s Hs Hc). simpl in *. lia.
Qed.

Lemma total_cells_mark_mine st c :
  (total_cells (ai_mark_mine st c) ≤ total_cells st)%nat
  ∧ (∀ s, s ∈ knowledge st → c ∈ cells s →
          (total_cells (ai_mark_mine st c) < total_cells st)%nat).
Proof.
  unfold total_cells. simpl. induction (knowledge st) as [|t kb [IH1 IH2]].
  { split; [done|]. intros s Hs. by apply elem_of_nil in Hs. }
  cbn [fmap list_fmap sum_list sum_list_with compose].
  assert (size (cells (mark_mine c t)) ≤ size (cells t))%nat as Hle.
  { apply subseteq_size. rewrite cells_mark_mine. set_solver. }
  split; [simpl in *; lia|].
  intros s [->|Hs]%elem_of_cons Hc.
  - rewrite mark_mine_in by done. cbn [cells].
    pose proof (len_remove (cells t) c Hc) as Hlen. unfold len in Hlen.
    simpl in *. lia.
  - specialize (IH2 s Hs Hc). simpl in *. lia.
Qed.

Lemma total_cells_marks_safe st l :
  (total_cells (foldl ai_mark_safe st l) ≤ total_cells st)%nat.
Proof.
  revert st. induction l as [|c l IH]; intros st; simpl; [done|].
  etrans; [apply IH|]. apply total_cells_mark_safe.
Qed.

Lemma total_cells_marks_mine st l :
  (total_cells (foldl ai_mark_mine st l) ≤ total_cells st)%nat.
Proof.
  revert st. induction l as [|c l IH]; intros st; simpl; [done|].
  etrans; [apply IH|]. apply total_cells_mark_mine.
Qed.

Lemma elements_nonempty (X : gset Cell) :
  X ≠ ∅ → ∃ c l, elements X = c :: l ∧ c ∈ X.
Proof.
  intros HX. destruct (elements X) as [|c l] eqn:Hel.
  { apply elements_empty_inv in Hel. destruct HX. by apply leibniz_equiv. }
  exists c, l. split; [done|]. apply elem_of_elements. rewrite Hel. by left.
Qed.

Lemma visit_total_cells st i :
  (total_cells (visit st i) ≤ total_cells st)%nat
  ∧ (∀ s, knowledge st !! i = Some s → decisive s = true →
          (total_cells (visit st i) < total_cells st)%nat).
Proof.
  unfold visit. destruct (knowledge st !! i) as [s|] eqn:Hs.
  2:{ split; [done|]. by intros s [=]. }
  set (st1 := if truthy (known_safes s) then _ else st).
  assert ((total_cells st1 ≤ total_cells st)%nat
          ∧ (truthy (known_safes s) = true →
             (total_cells st1 < total_cells st)%nat)) as [Hle1 Hlt1].
  { subst st1. destruct (truthy (known_safes s)) eqn:Ht; [|by split].
    apply known_safes_truthy in Ht as (_ & Hne & ->). simpl.
    destruct (elements_nonempty _ Hne) as (c & l & -> & Hc). simpl.
    assert (total_cells (ai_mark_safe st c) < total_cells st)%nat.
    { eapply total_cells_mark_safe; [|done]. by eapply list_elem_of_lookup_2. }
    pose proof (total_cells_marks_safe (ai_mark_safe st c) l). lia. }
  set (st2 := match knowledge st1 !! i with Some _ => _ | None => st1 end).
  assert ((total_cells st2 ≤ total_cells st1)%nat
          ∧ (truthy (known_safes s) = false →
             truthy (known_mines s) = true →
             (total_cells st2 < total_cells st1)%nat)) as [Hle2 Hlt2].
  { subst st2. destruct (knowledge st1 !! i) as [s1|] eqn:Hs1.
    2:{ split; [done|]. intros Hf. subst st1. rewrite Hf in Hs1. congruence. }
    destruct (truthy (known_mines s1)) eqn:Ht.
    2:{ split; [done|]. intros Hf. subst st1. rewrite Hf in Hs1.
        congruence. }
    apply known_mines_truthy in Ht as (_ & _ & Hne & ->). simpl.
    destruct (elements_nonempty _ Hne) as (c & l & -> & Hc). simpl.
    assert (total_cells (ai_mark_mine st1 c) < total_cells st1)%nat.
    { eapply total_cells_mark_mine; [|done]. by eapply list_elem_of_lookup_2. }
    pose proof (total_cells_marks_mine (ai_mark_mine st1 c) l).
    split; [lia|]. intros _ _. lia. }
  split; [lia|]. intros s' [= <-] Hd. unfold decisive in Hd.
  destruct (truthy (known_safes s)) eqn:Hsafe.
  - specialize (Hlt1 eq_refl). lia.
  - simpl in Hd. specialize (Hlt2 eq_refl Hd). lia.
Qed.

Lemma visits_total_cells st idx :
  (total_cells (foldl visit st idx) ≤ total_cells st)%nat.
Proof.
  revert st. induction idx as [|i idx IH]; intros st; simpl; [done|].
  etrans; [apply IH|]. apply visit_total_cells.
Qed.

Lemma visits_fixed st idx :
  foldl visit st idx = st ↔
  ∀ i s, i ∈ idx → knowledge st !! i = Some s → decisive s = false.
Proof.
  induction idx as [|i idx IH]; simpl.
  { split; [|done]. intros _ i s Hi. by apply elem_of_nil in Hi. }
  split.
  - intros Hfix.
    pose proof (visits_total_cells (visit st i) idx) as Hle.
    rewrite Hfix in Hle.
    destruct (visit_total_cells st i) as [Hle' Hlt].
    assert (∀ s, knowledge st !! i = Some s → decisive s = false) as Hi.
    { intros s Hs. destruct (decisive s) eqn:Hd; [|done].
      specialize (Hlt s Hs Hd). lia. }
    rewrite (visit_not_decisive st i Hi) in Hfix.
    intros j s [->|Hj]%elem_of_cons; [by apply Hi|].
    by apply (proj1 IH Hfix).
  - intros Hall. rewrite visit_not_decisive.
    + apply IH. intros j s Hj. apply Hall. by right.
    + intros s. apply Hall. by left.
Qed.

Lemma decisive_true_iff s :
  decisive s = true ↔
  cells s ≠ ∅ ∧ (count s = 0 ∨ count s = len (cells s)).
Proof.
  unfold decisive. rewrite orb_true_iff. split.
  - intros [(? & ? & _)%known_safes_truthy
           |(_ & ? & ? & _)%known_mines_truthy]; auto.
  - intros [Hne [H0|Hfull]].
    + left. by apply known_safes_zero.
    + destruct (decide (count s = 0)) as [H0|H0].
      * left. by apply known_safes_zero.
      * right. by apply known_mines_full.
Qed.

(** X15.  The extraction loop leaves the engine exactly as it is if and only
    if no sentence of the knowledge base passes one of its two tests, that
    is, no sentence with cells has count 0 or count equal to the number of
    its cells. *)
Theorem extract_fixpoint (st : AI) :
  extract st = st ↔
  ∀ s, s ∈ knowledge st →
       ¬ (cells s ≠ ∅ ∧ (count s = 0 ∨ count s = len (cells s))).
Proof.
  unfold extract. rewrite visits_fixed. split.
  - intros H s [i Hi]%list_elem_of_lookup_1 Hd%decisive_true_iff.
    rewrite (H i s) in Hd; [done| |done].
    apply elem_of_seq. apply lookup_lt_Some in Hi. lia.
  - intros H i s _ Hi. destruct (decisive s) eqn:Hd; [|done].
    apply decisive_true_iff in Hd. destruct (H s); [|done].
    by eapply list_elem_of_lookup_2.
Qed.

(** ** The subset loop never fails *)

(** X16.  The subset loop of [add_knowledge], run over the indices of the
    list it starts with, never reads past the end of the list and never
    removes an absent element: it returns a list that is at least as long,
    and the cell set of each of its sentences is part of the cell set of the
    new sentence or of a sentence it started with. *)
Theorem subset_loop_never_fails (cs : gset Cell) (n : Z)
    (kb : list Sentence) :
  ∃ kb', subset_loop cs n kb (seq 0 (length kb)) = Some kb'
         ∧ (length kb ≤ length kb')%nat
         ∧ ∀ s', s' ∈ kb' →
                 cells s' ⊆ cs ∨ ∃ s, s ∈ kb ∧ cells s' ⊆ cells s.
Proof.
  destruct (subset_loop_total cs n (seq 0 (length kb)) kb)
    as (kb' & Hloop & Hlen).
  { apply Forall_forall. intros i Hi%elem_of_seq. lia. }
  exists kb'. split_and!; [done..|].
  apply (proj1 (Forall_forall
           (λ s', cells s' ⊆ cs ∨ ∃ s, s ∈ kb ∧ cells s' ⊆ cells s) kb')).
  eapply (subset_loop_Forall
            (λ s', cells s' ⊆ cs ∨ ∃ s, s ∈ kb ∧ cells s' ⊆ cells s));
    [| | |done].
  - intros s _ _. left. cbn [cells]. set_solver.
  - intros s [Hs|(s0 & Hs0 & Hs)] _; cbn [cells].
    + left. set_solver.
    + right. exists s0. split; [done|]. set_solver.
  - apply Forall_forall. intros s Hs. right. by exists s.
Qed.

(** ** The removal pass without neighbouring empty sentences *)

Lemma remove_first_at x l (i : nat) :
  l !! i = Some x → x ∉ take i l →
  remove_first x l = take i l ++ drop (S i) l.
Proof.
  revert i. induction l as [|y l IH]; intros i; [done|].
  destruct i as [|i]; simpl.
  - intros [= ->] _. by rewrite decide_True, drop_0.
  - intros Hi Hx. rewrite decide_False by set_solver.
    f_equal. apply IH; [done|set_solver].
Qed.

Lemma filter_all (P : Sentence → Prop) `{!∀ s, Decision (P s)} l :
  Forall P l → filter P l = l.
Proof.
  induction 1 as [|x l Hx _ IH]; [done|].
  by rewrite filter_cons, decide_True, IH.
Qed.

Lemma remove_empty_from_complete fuel i kb :
  (length kb ≤ i + fuel)%nat →
  Forall (λ s, ¬ is_empty s) (take i kb) →
  (∀ j s1 s2, kb !! j = Some s1 → kb !! S j = Some s2 →
              is_empty s1 → ¬ is_empty s2) →
  remove_empty_from fuel i kb = filter (λ s, ¬ is_empty s) kb.
Proof.
  revert i kb. induction fuel as [|fuel IH]; intros i kb Hfuel Htake Hadj.
  { simpl. rewrite take_ge in Htake by lia. by rewrite filter_all. }
  simpl. destruct (kb !! i) as [s|] eqn:Hi.
  2:{ apply lookup_ge_None in Hi. rewrite take_ge in Htake by lia.
      by rewrite filter_all. }
  pose proof (lookup_lt_Some _ _ _ Hi) as Hlt.
  case_decide as Hs.
  - assert (s ∉ take i kb) as Hnotin.
    { intros Hin. rewrite Forall_forall in Htake. by apply (Htake s). }
    rewrite (remove_first_at s kb i) by done.
    rewrite <-(remove_first_filter (λ s, ¬ is_empty s) s kb)
      by (unfold is_empty; tauto).
    rewrite (remove_first_at s kb i) by done.
    assert (length (take i kb) = i) as Hlen by (rewrite length_take; lia).
    apply IH.
    + rewrite length_app, length_drop, Hlen. lia.
    + rewrite take_app_ge by lia. rewrite Hlen.
      replace (S i - i)%nat with 1%nat by lia.
      apply Forall_app. split; [done|].
      apply Forall_forall. intros t Ht.
      apply list_elem_of_lookup_1 in Ht as [k Hk].
      apply lookup_take_Some in Hk as [Hk Hk1].
      assert (k = 0%nat) as -> by lia.
      rewrite lookup_drop, Nat.add_0_r in Hk.
      by apply (Hadj i s t).
    + intros j s1 s2 H1 H2 He1.
      destruct (decide (j < i)%nat) as [Hj|Hj].
      * rewrite lookup_app_l in H1 by lia.
        rewrite Forall_forall in Htake. destruct (Htake s1); [|done].
        apply list_elem_of_lookup_2 in H1. done.
      * rewrite lookup_app_r in H1 by lia.
        rewrite lookup_app_r in H2 by lia.
        rewrite Hlen, lookup_drop in H1. rewrite Hlen, lookup_drop in H2.
        apply (Hadj (S i + (j - i))%nat s1 s2); [done| |done].
        rewrite <-H2. f_equal. lia.
  - apply IH; [lia| |done].
    rewrite (take_S_r _ _ s) by done. apply Forall_app. split; [done|].
    apply Forall_singleton. unfold is_empty. done.
Qed.

(** X17.  When no two sentences with an empty cell set stand next to each
    other, the removal pass of [add_knowledge] removes every sentence with an
    empty cell set and keeps the others in their order. *)
Theorem remove_empty_complete (kb : list Sentence) :
  (∀ j s1 s2, kb !! j = Some s1 → kb !! S j = Some s2 →
              is_empty s1 → ¬ is_empty s2) →
  remove_empty kb = filter (λ s, ¬ is_empty s) kb.
Proof.
  intros Hadj. apply remove_empty_from_complete; [simpl; lia| |done].
  rewrite take_0. apply Forall_nil_2.
Qed.

Lemma remove_empty_complete_witness :
  let kb := [mkSentence ∅ 0; mkSentence {[(0, 0)]} 1; mkSentence ∅ 0] in
  remove_empty kb = filter (λ s, ¬ is_empty s) kb.
Proof.
  intros kb. apply (remove_empty_complete kb).
  intros j s1 s2 H1 H2 He1.
  destruct j as [|[|[|j]]]; simpl in H1, H2; try done.
  - injection H2 as <-. unfold is_empty. vm_compute. discriminate.
  - injection H1 as <-. exfalso. revert He1. unfold is_empty.
    vm_compute. discriminate.
Defined.

(** ** Minesweeper.__init__ and the board as a list of rows *)

Section board.

Import Board.

Implicit Types (b : Board.t) (d p : Cell).

Lemma foldl_snoc_replicate {A B} (x : A) (l : list B) (acc : list A) :
  foldl (λ r _, r ++ [x]) acc l = acc ++ replicate (length l) x.
Proof.
  revert acc. induction l as [|y l IH]; intros acc; simpl.
  { by rewrite app_nil_r. }
  rewrite IH. by rewrite <-app_assoc.
Qed.

Lemma length_range_0 (n : Z) : length (range 0 n) = Z.to_nat n.
Proof. unfold range. rewrite length_seqZ. f_equal. lia. Qed.

Lemma blank_eq h w :
  blank h w = replicate (Z.to_nat h) (replicate (Z.to_nat w) false).
Proof.
  unfold blank, blank_row.
  by rewrite !foldl_snoc_replicate, !length_range_0.
Qed.

Lemma synced_blank h w : synced (Board.Build h w (blank h w) ∅ ∅).
Proof.
  unfold synced. cbn [Board.board Board.height Board.width Board.mines].
  rewrite blank_eq. split_and!.
  - by rewrite length_replicate.
  - intros i j Hi Hj. rewrite lookup_replicate_2 by done. simpl.
    rewrite lookup_replicate_2 by done.
    by rewrite bool_decide_eq_false_2 by set_solver.
  - intros p Hp. set_solver.
Qed.

Lemma py_get_nat {A} (l : list A) (i : Z) :
  0 ≤ i → py_get l i = l !! Z.to_nat i.
Proof. intros Hi. unfold py_get. by rewrite decide_True. Qed.

Lemma py_set_nat {A} (l : list A) (i : Z) (x : A) :
  0 ≤ i → (Z.to_nat i < length l)%nat →
  py_set l i x = Some (<[Z.to_nat i := x]> l).
Proof.
  intros Hi Hlt. unfold py_set. rewrite decide_True by done.
  rewrite decide_True by lia. done.
Qed.

Lemma synced_lookup b d :
  synced b → (0 ≤ d.1 < Board.height b) → (0 ≤ d.2 < Board.width b) →
  ∃ row, Board.board b !! Z.to_nat d.1 = Some row
         ∧ row !! Z.to_nat d.2 = Some (bool_decide (d ∈ Board.mines b)).
Proof.
  intros (_ & Hsync & _) H1 H2.
  specialize (Hsync (Z.to_nat d.1) (Z.to_nat d.2)).
  rewrite !Z2Nat.id in Hsync by lia.
  replace (d.1, d.2) with d in Hsync by (by destruct d).
  specialize (Hsync ltac:(lia) ltac:(lia)). revert Hsync.
  destruct (Board.board b !! Z.to_nat d.1) as [row|]; simpl; [|done].
  intros Hrow. by exists row.
Qed.

Lemma is_mine_synced b p :
  synced b → (0 ≤ p.1 < Board.height b) → (0 ≤ p.2 < Board.width b) →
  Board.is_mine b p = Some (bool_decide (p ∈ Board.mines b)).
Proof.
  intros Hb H1 H2.
  destruct (synced_lookup b p Hb H1 H2) as (row & Hrow & Hcur).
  unfold Board.is_mine. rewrite py_get_nat, Hrow by lia. simpl.
  by rewrite py_get_nat, Hcur by lia.
Qed.

Lemma place_step_synced b d :
  synced b → (0 ≤ d.1 < Board.height b) → (0 ≤ d.2 < Board.width b) →
  ∃ b', place_step b d = Some b' ∧ synced b'
        ∧ Board.mines b' = {[d]} ∪ Board.mines b
        ∧ Board.height b' = Board.height b
        ∧ Board.width b' = Board.width b
        ∧ Board.mines_found b' = Board.mines_found b.
Proof.
  intros Hb H1 H2.
  destruct (synced_lookup b d Hb H1 H2) as (row & Hrow & Hcur).
  unfold place_step. rewrite py_get_nat, Hrow by lia. simpl.
  rewrite py_get_nat, Hcur by lia. simpl.
  destruct (decide (d ∈ Board.mines b)) as [Hd|Hd].
  { rewrite bool_decide_eq_true_2 by done. exists b.
    split_and!; [done..| |done|done|done]. set_solver. }
  rewrite bool_decide_eq_false_2 by done.
  pose proof (lookup_lt_Some _ _ _ Hrow) as Hlt1.
  pose proof (lookup_lt_Some _ _ _ Hcur) as Hlt2.
  rewrite py_set_nat by (done || lia). simpl.
  rewrite py_set_nat by (done || lia). simpl.
  eexists. split; [done|]. split_and!; [|done..].
  destruct Hb as (Hlen & Hsync & Hin).
  unfold synced.
  cbn [Board.board Board.height Board.width Board.mines]. split_and!.
  - by rewrite length_insert.
  - intros i j Hi Hj.
    destruct (decide (i = Z.to_nat d.1)) as [->|Hne].
    + rewrite list_lookup_insert_eq by done. simpl.
      destruct (decide (j = Z.to_nat d.2)) as [->|Hne'].
      * rewrite list_lookup_insert_eq by done.
        rewrite bool_decide_eq_true_2; [done|].
        rewrite !Z2Nat.id by lia. destruct d. set_solver.
      * rewrite list_lookup_insert_ne by done.
        specialize (Hsync (Z.to_nat d.1) j Hi Hj).
        rewrite Hrow in Hsync. simpl in Hsync. rewrite Hsync.
        apply (f_equal Some), bool_decide_ext.
        rewrite elem_of_union, elem_of_singleton.
        split; [by right|]. intros [Heq|?]; [|done].
        destruct Hne'. rewrite <-Heq. simpl. lia.
    + rewrite list_lookup_insert_ne by done.
      rewrite (Hsync i j Hi Hj).
      apply (f_equal Some), bool_decide_ext.
      rewrite elem_of_union, elem_of_singleton.
      split; [by right|]. intros [Heq|?]; [|done].
      destruct Hne. rewrite <-Heq. simpl. lia.
  - intros p [Hp|Hp]%elem_of_union; [|by apply Hin].
    apply elem_of_singleton in Hp as ->. done.
Qed.

Lemma place_nil target b :
  place target [] b
  = if decide (len (Board.mines b) = target) then Done b
    else if decide (Board.height b ≤ 0 ∨ Board.width b ≤ 0) then Raised
         else Running b.
Proof. done. Qed.

Lemma place_cons target d draws b :
  place target (d :: draws) b
  = if decide (len (Board.mines b) = target) then Done b
    else if decide (Board.height b ≤ 0 ∨ Board.width b ≤ 0) then Raised
         else match place_step b d with
              | None => Raised
              | Some b' => place target draws b'
              end.
Proof. done. Qed.

Lemma place_spec target draws b :
  synced b →
  Forall (λ d, (0 ≤ d.1 < Board.height b) ∧ (0 ≤ d.2 < Board.width b))
    draws →
  match place target draws b with
  | Done b' =>
      synced b' ∧ len (Board.mines b') = target
      ∧ Board.height b' = Board.height b ∧ Board.width b' = Board.width b
      ∧ Board.mines_found b' = Board.mines_found b
      ∧ ∃ k, Board.mines b'
             = list_to_set (take k draws) ∪ Board.mines b
  | Running b' =>
      synced b' ∧ len (Board.mines b') ≠ target
      ∧ Board.mines b' = list_to_set draws ∪ Board.mines b
  | Raised =>
      (Board.height b ≤ 0 ∨ Board.width b ≤ 0)
      ∧ len (Board.mines b) ≠ target
  end.
Proof.
  intros Hb Hdraws. revert b Hb Hdraws.
  induction draws as [|d draws IH]; intros b Hb Hdraws.
  - rewrite place_nil. case_decide as Hlen.
    { split_and!; [done..|]. exists 0%nat. simpl. set_solver. }
    case_decide; [done|]. split_and!; [done..|]. set_solver.
  - rewrite place_cons. case_decide as Hlen.
    { split_and!; [done..|]. exists 0%nat. simpl. set_solver. }
    case_decide as Hdims; [done|].
    apply Forall_cons in Hdraws as [[H1 H2] Hdraws].
    destruct (place_step_synced b d Hb H1 H2)
      as (b' & -> & Hb' & Hmines & Hh & Hw & Hfound).
    specialize (IH b' Hb'). rewrite Hh, Hw in IH. specialize (IH Hdraws).
    revert IH. destruct (place target draws b') as [b''| |b'']; intros IH.
    + destruct IH as (? & ? & ? & ? & ? & k & Hk).
      split_and!; [done..|congruence|]. exists (S k). simpl.
      rewrite Hk, Hmines. set_solver.
    + destruct IH as [? _]. done.
    + destruct IH as (? & ? & Hk). split_and!; [done..|].
      rewrite Hk, Hmines. set_solver.
Qed.

Lemma len_union_singleton (X : gset Cell) d : len ({[d]} ∪ X) ≤ len X + 1.
Proof.
  destruct (decide (d ∈ X)) as [Hd|Hd].
  - replace ({[d]} ∪ X) with X by set_solver. lia.
  - unfold len. rewrite (size_union {[d]} X) by set_solver.
    rewrite size_singleton. lia.
Qed.

Lemma place_terminates target draws b :
  synced b →
  Forall (λ d, (0 ≤ d.1 < Board.height b) ∧ (0 ≤ d.2 < Board.width b))
    draws →
  len (Board.mines b) ≤ target
  ≤ len (list_to_set draws ∪ Board.mines b) →
  ∃ b', place target draws b = Done b'.
Proof.
  intros Hb Hdraws. revert b Hb Hdraws.
  induction draws as [|d draws IH]; intros b Hb Hdraws Htarget.
  - rewrite place_nil. case_decide as Hlen; [by eauto|]. exfalso.
    replace (list_to_set [] ∪ Board.mines b) with (Board.mines b)
      in Htarget by set_solver.
    lia.
  - rewrite place_cons. case_decide as Hlen; [by eauto|].
    apply Forall_cons in Hdraws as [[H1 H2] Hdraws].
    rewrite decide_False by lia.
    destruct (place_step_synced b d Hb H1 H2)
      as (b' & -> & Hb' & Hmines & Hh & Hw & Hfound).
    apply IH; [done|by rewrite Hh, Hw|]. rewrite Hmines. split.
    + pose proof (len_union_singleton (Board.mines b) d). lia.
    + replace (list_to_set draws ∪ ({[d]} ∪ Board.mines b))
        with (list_to_set (d :: draws) ∪ Board.mines b) by set_solver.
      lia.
Qed.

(** X18.  [Minesweeper.__init__(h, w, mines)], for draws that
    [random.randrange] can give: when it returns, exactly [mines] cells are
    mines, all of them cells of the board, [board[i][j]] is [True] exactly
    for them, and [won()] is true only for [mines = 0]; it raises only for a
    board without cells and [mines] other than 0; and it returns as soon as
    the draws have given [mines] different cells. *)
Theorem init_spec (h w target : Z) (draws : list Cell) :
  Forall (λ d, (0 ≤ d.1 < h) ∧ (0 ≤ d.2 < w)) draws →
  match Board.init h w target draws with
  | Done b =>
      Board.height b = h ∧ Board.width b = w ∧ synced b
      ∧ len (Board.mines b) = target
      ∧ Board.mines_found b = ∅
      ∧ won b = bool_decide (target = 0)
  | Running b => len (list_to_set draws : gset Cell) ≠ target
  | Raised => (h ≤ 0 ∨ w ≤ 0) ∧ target ≠ 0
  end
  ∧ (0 ≤ target ≤ len (list_to_set draws : gset Cell) →
     ∃ b, Board.init h w target draws = Done b).
Proof.
  intros Hdraws. unfold Board.init.
  pose proof (synced_blank h w) as Hb0.
  pose proof (place_spec target draws _ Hb0 Hdraws) as Hspec.
  pose proof (place_terminates target draws _ Hb0 Hdraws) as Hterm.
  cbn [Board.height Board.width Board.mines Board.mines_found]
    in Hspec, Hterm.
  assert (len ∅ = 0) as Hlen0 by (by apply len_empty_iff).
  assert (list_to_set draws ∪ ∅ = (list_to_set draws : gset Cell))
    as Hunion by set_solver.
  rewrite Hlen0, Hunion in Hterm. rewrite Hlen0, Hunion in Hspec.
  split; [|done].
  revert Hspec. destruct (place target draws _) as [b| |b].
  - intros (Hb & Hlen & Hh & Hw & Hfound & _).
    split_and!; [done..|]. unfold won. rewrite Hfound.
    apply bool_decide_ext. rewrite <-Hlen. split.
    + intros <-. by apply len_empty_iff.
    + intros Hz. apply len_empty_iff in Hz. by rewrite Hz.
  - intros [? ?]. done.
  - intros (_ & Hne & Hm). by rewrite Hm in Hne.
Qed.

Lemma init_spec_witness :
  match Board.init 2 2 1 [(0, 1)] with
  | Done b =>
      Board.height b = 2 ∧ Board.width b = 2 ∧ synced b
      ∧ len (Board.mines b) = 1
      ∧ Board.mines_found b = ∅
      ∧ won b = bool_decide (1 = 0)
  | Running b => len (list_to_set [(0, 1)] : gset Cell) ≠ 1
  | Raised => (2 ≤ 0 ∨ 2 ≤ 0) ∧ 1 ≠ 0
  end
  ∧ (0 ≤ 1 ≤ len (list_to_set [(0, 1)] : gset Cell) →
     ∃ b, Board.init 2 2 1 [(0, 1)] = Done b).
Proof.
  apply (init_spec 2 2 1 [(0, 1)]).
  apply Forall_singleton. simpl. lia.
Defined.

Lemma nearby_step_refines b cell m p :
  synced b →
  Board.nearby_step b cell m p
  = Some (Game.nearby_step (game b) cell m p).
Proof.
  intros Hb.
  unfold Board.nearby_step, Game.nearby_step, Game.in_bounds, Game.board.
  cbn [game Game.height Game.width Game.mines].
  destruct (decide (p = cell)); [done|].
  destruct (decide (0 ≤ p.1 < Board.height b)) as [H1|H1].
  2:{ by rewrite (bool_decide_eq_false_2 _ H1). }
  destruct (decide (0 ≤ p.2 < Board.width b)) as [H2|H2].
  2:{ by rewrite (bool_decide_eq_false_2 _ H2), andb_false_r. }
  rewrite (bool_decide_eq_true_2 _ H1), (bool_decide_eq_true_2 _ H2).
  cbn [andb]. rewrite is_mine_synced by done. simpl.
  by replace (p.1, p.2) with p by (by destruct p).
Qed.

Lemma nearby_loop_refines b cell l m :
  synced b →
  foldl (λ o p, count ← o; Board.nearby_step b cell count p) (Some m) l
  = Some (foldl (Game.nearby_step (game b) cell) m l).
Proof.
  intros Hb. revert m. induction l as [|p l IH]; intros m; [done|].
  cbn [foldl]. rewrite <-IH. f_equal.
  by apply nearby_step_refines.
Qed.

(** X19.  On a board as [__init__] leaves it, [nearby_mines] never fails on
    an index and gives the number computed from the set of mines alone, for
    every cell, on the board or not; and [is_mine] of a cell of the board
    tells whether the cell is in [mines]. *)
Theorem board_refines_game (b : Board.t) (cell : Cell) :
  synced b →
  Board.nearby_mines b cell = Some (Game.nearby_mines (game b) cell)
  ∧ ((0 ≤ cell.1 < Board.height b) → (0 ≤ cell.2 < Board.width b) →
     Board.is_mine b cell = Some (Game.is_mine (game b) cell)).
Proof.
  intros Hb. split; [by apply nearby_loop_refines|].
  intros H1 H2. rewrite is_mine_synced by done.
  unfold Game.is_mine, Game.board. cbn [game Game.mines].
  by replace (cell.1, cell.2) with cell by (by destruct cell).
Qed.

Lemma board_refines_game_witness :
  let b := Board.Build 1 2 [[false; true]] {[(0, 1)]} ∅ in
  Board.nearby_mines b (0, 0) = Some (Game.nearby_mines (game b) (0, 0))
  ∧ ((0 ≤ 0 < 1) → (0 ≤ 0 < 2) →
     Board.is_mine b (0, 0) = Some (Game.is_mine (game b) (0, 0))).
Proof.
  intros b. apply (board_refines_game b (0, 0)).
  unfold synced, b. cbn [Board.board Board.height Board.width Board.mines].
  split_and!.
  - reflexivity.
  - intros [|i] j Hi Hj; [|lia].
    destruct j as [|[|j]]; [by_compute|by_compute|lia].
  - intros p Hp. apply elem_of_singleton in Hp as ->. simpl. lia.
Defined.

End board.
